(** * A line-delimited echo server over a promise-based socket adapter

    Shallow embedding of [src/echo_server.ts] (the buffered variant that
    starts at the second [import * as net] of that file): the growable
    byte buffer ([DynBuf], [bufPush], [bufPop]), the message framer
    ([cutMessage]), the connection adapter ([soInit], [soRead],
    [soWrite]) and the connection handler ([serveClient]).

    Conventions.
    - A [Buffer] is a [list byte]; its [length] property is [blen].
    - A JS number that holds a length or an index is a [Z]: the code can
      make [size] negative ([bufPop] with [len > size]), and the Node
      primitives clamp or throw on such values, which is written out.
    - A JS exception is [None] (buffer layer) or the [Thrown] program
      point (handler layer).
    - Allocation limits of the runtime ([Buffer.alloc] beyond the
      maximal buffer size) are outside the model. *)

From Stdlib Require Import ZArith List Bool Lia.
From Stdlib Require Import Strings.Byte.
Import ListNotations.
Local Open Scope Z_scope.

Set Implicit Arguments.

(** ** Node [Buffer] primitives used by the source *)

Module NodeBuffer.

Definition bytes := list byte.

(** [buf.length] *)
Definition blen (b : bytes) : Z := Z.of_nat (length b).

(** [Buffer.alloc(n)]: [n] zero bytes. *)
Definition alloc (n : Z) : bytes := repeat x00 (Z.to_nat n).

(** Relative index of the typed-array methods ([subarray], [copyWithin]):
    a negative index counts from the end, and the result is clamped to
    [0 .. len]. *)
Definition rel_index (len k : Z) : Z :=
  if k <? 0 then Z.max (len + k) 0 else Z.min k len.

(** [a.subarray(s, e)] *)
Definition subarray (a : bytes) (s e : Z) : bytes :=
  let len := blen a in
  let b := rel_index len s in
  let f := rel_index len e in
  firstn (Z.to_nat (f - b)) (skipn (Z.to_nat b) a).

(** [a.copyWithin(target, start, end)]: the bytes [start .. end) are
    moved to [target]; the length of [a] does not change. *)
Definition copyWithin (a : bytes) (target start end_ : Z) : bytes :=
  let len := blen a in
  let to := rel_index len target in
  let from := rel_index len start in
  let final := rel_index len end_ in
  let count := Z.min (final - from) (len - to) in
  if 0 <? count then
    firstn (Z.to_nat to) a
      ++ firstn (Z.to_nat count) (skipn (Z.to_nat from) a)
      ++ skipn (Z.to_nat (to + count)) a
  else a.

(** [source.copy(target, targetStart)] (also called with an explicit
    [sourceStart = 0]): returns the new contents of [target]. A negative
    [targetStart] throws a [RangeError]; a [targetStart] at or beyond the
    end of [target] copies nothing; otherwise as many bytes of [source]
    as fit are written. *)
Definition copy (source target : bytes) (targetStart : Z) : option bytes :=
  if targetStart <? 0 then None
  else if blen target <=? targetStart then Some target
  else
    let nb := Z.min (blen source) (blen target - targetStart) in
    Some (firstn (Z.to_nat targetStart) target
            ++ firstn (Z.to_nat nb) source
            ++ skipn (Z.to_nat (targetStart + nb)) target).

(** [a.indexOf(x)] for a one-byte needle: the first index holding [x],
    or [-1]. *)
Fixpoint index_from (x : byte) (a : bytes) (i : Z) : Z :=
  match a with
  | [] => -1
  | y :: t => if Byte.eqb y x then i else index_from x t (i + 1)
  end.

Definition indexOf (a : bytes) (x : byte) : Z := index_from x a 0.

(** [a.equals(b)] *)
Definition equals (a b : bytes) : bool :=
  if list_eq_dec Byte.byte_eq_dec a b then true else false.

(** [Buffer.concat([a, b])] *)
Definition concat2 (a b : bytes) : bytes := a ++ b.

End NodeBuffer.
Import NodeBuffer.

(** The delimiter ["\n"], and the literals of the protocol. *)
Definition nl : byte := x0a.
Definition quit_msg : bytes := [x71; x75; x69; x74; x0a].       (* "quit\n" *)
Definition bye_msg : bytes := [x42; x79; x65; x0a].             (* "Bye\n" *)
Definition echo_prefix : bytes := [x45; x63; x68; x6f; x3a; x20]. (* "Echo: " *)

(** ** Dynamic buffer *)

Record DynBuf := mkDynBuf {
  data : bytes;   (* allocated memory *)
  size : Z        (* bytes actually used *)
}.

(** The buffer [serveClient] starts with: [{data: Buffer.alloc(0), size: 0}]. *)
Definition empty_buf : DynBuf := mkDynBuf (alloc 0) 0.

(** [while (cap < newLen) cap *= 2]; the loop runs at most [fuel] times. *)
Fixpoint grow_cap (fuel : nat) (cap newLen : Z) : Z :=
  match fuel with
  | O => cap
  | S f => if cap <? newLen then grow_cap f (cap * 2) newLen else cap
  end.

(** [bufPush(buf, data)]. [None] is the [RangeError] of [data.copy] when
    [buf.size] is negative (the buffer is then not looked at again). The
    doubling loop starts at [cap >= 32], so [newLen] iterations are more
    than it can use ([grow_cap_reaches]). *)
Definition bufPush (buf : DynBuf) (d : bytes) : option DynBuf :=
  let newLen := size buf + blen d in
  let grown_data :=
    if blen (data buf) <? newLen then
      let cap := grow_cap (Z.to_nat newLen) (Z.max (blen (data buf)) 32) newLen in
      let grown := alloc cap in
      copy (data buf) grown 0
    else Some (data buf) in
  match grown_data with
  | None => None
  | Some dat =>
      match copy d dat (size buf) with
      | None => None
      | Some dat' => Some (mkDynBuf dat' newLen)
      end
  end.

(** [bufPop(buf, len)] *)
Definition bufPop (buf : DynBuf) (len : Z) : DynBuf :=
  mkDynBuf (copyWithin (data buf) 0 len (size buf)) (size buf - len).

(** [cutMessage(buf)]: the message, if any, and the buffer afterwards. *)
Definition cutMessage (buf : DynBuf) : option bytes * DynBuf :=
  let idx := indexOf (subarray (data buf) 0 (size buf)) nl in
  if idx <? 0 then (None, buf)
  else
    let msg := subarray (data buf) 0 (idx + 1) in
    (Some msg, bufPop buf (idx + 1)).

(** The valid pending bytes [[0, size)] of a buffer. *)
Definition used (buf : DynBuf) : bytes := subarray (data buf) 0 (size buf).

(** The data-model invariant [0 <= size <= cap]. *)
Definition wf (buf : DynBuf) : Prop := 0 <= size buf <= blen (data buf).

(** ** The growth rule *)

(** The capacities the growth rule can produce: [32 * 2^k]. *)
Definition scaled (k : nat) : Z := 32 * 2 ^ Z.of_nat k.

(** [c] is the smallest value of the form [32 * 2^k] that is [>= n]. *)
Definition least_scaled (c n : Z) : Prop :=
  exists k, c = scaled k /\ n <= c /\ forall j, n <= scaled j -> c <= scaled j.

(** The capacity after [bufPush] on a buffer of capacity [c] whose new
    length is [n] (the first half of [bufPush]). *)
Definition new_cap (c n : Z) : Z :=
  if c <? n then grow_cap (Z.to_nat n) (Z.max c 32) n else c.

(** ** Framing *)

(** [n] successive [cutMessage(buf)] calls: their results, in order, and
    the buffer afterwards. *)
Fixpoint cuts (n : nat) (buf : DynBuf) : list (option bytes) * DynBuf :=
  match n with
  | O => ([], buf)
  | S m =>
      let (r, b1) := cutMessage buf in
      let (rs, b2) := cuts m b1 in
      (r :: rs, b2)
  end.

(** A sequence of [bufPush] calls, one per chunk; [None] if one throws. *)
Fixpoint pushAll (buf : DynBuf) (chunks : list bytes) : option DynBuf :=
  match chunks with
  | [] => Some buf
  | d :: rest =>
      match bufPush buf d with
      | None => None
      | Some b => pushAll b rest
      end
  end.

(** Framing as the specification words it (not taken from the code): a
    message is the bytes up to and including one delimiter. [lines l] is
    the complete messages of [l], in order, and the delimiter-free
    remainder. *)
Fixpoint lines (l : bytes) : list bytes * bytes :=
  match l with
  | [] => ([], [])
  | x :: t =>
      let (ms, r) := lines t in
      if Byte.eqb x nl then ([x] :: ms, r)
      else
        match ms with
        | [] => ([], x :: r)
        | m :: ms' => ((x :: m) :: ms', r)
        end
  end.

(** One message: a delimiter-free body followed by the delimiter. *)
Definition is_line (m : bytes) : Prop :=
  exists body, m = body ++ [nl] /\ ~ In nl body.

(** ** Histories of [bufPush] / [bufPop] *)

Inductive BufOp :=
| Push (d : bytes)
| Pop (n : Z).

(** What the code does for one operation. *)
Definition apply_op (b : DynBuf) (op : BufOp) : option DynBuf :=
  match op with
  | Push d => bufPush b d
  | Pop n => Some (bufPop b n)
  end.

(** The precondition of an operation: none for [bufPush],
    [0 <= n <= size] for [bufPop]. *)
Definition op_ok (b : DynBuf) (op : BufOp) : bool :=
  match op with
  | Push _ => true
  | Pop n => (0 <=? n) && (n <=? size b)
  end.

(** A history: the operations are applied in order and the largest
    [size] seen is tracked; [None] when an operation is called outside
    its precondition, or throws. *)
Fixpoint run_ops (ops : list BufOp) (b : DynBuf) (peak : Z)
  : option (DynBuf * Z) :=
  match ops with
  | [] => Some (b, peak)
  | op :: rest =>
      if op_ok b op then
        match apply_op b op with
        | None => None
        | Some b' => run_ops rest b' (Z.max peak (size b'))
        end
      else None
  end.

(** The invariant of a history: well-formedness, the peak bounds [size],
    and the capacity is 0 before the first byte arrives and the least
    [32 * 2^k] that holds the peak afterwards. *)
Definition buf_inv (b : DynBuf) (peak : Z) : Prop :=
  wf b /\ size b <= peak
  /\ (peak = 0 -> blen (data b) = 0)
  /\ (0 < peak -> least_scaled (blen (data b)) peak).

(** ** Connection adapter *)

(** A JS [Error] value: a transport failure reported by the socket (its
    ['error'] event or a [write] callback), or the [RangeError] of
    [Buffer.copy]. *)
Inductive Error :=
| TransportError (code : nat)
| RangeError.

(** Calls made on the [net.Socket]. *)
Inductive SockOp :=
| Pause
| Resume
| Write (d : bytes)
| Destroy.

(** The state of a promise when its executor or a callback returns. *)
Inductive Settled (A : Type) :=
| Resolved (v : A)
| Rejected (e : Error)
| Pending.
Arguments Resolved {A} v.
Arguments Rejected {A} e.
Arguments Pending {A}.

(** The waiter stored in [conn.reader]: the [resolve]/[reject] pair of
    the promise made by [soRead]. [serveClient] is the only caller of
    [soRead] on its connection and awaits that promise at once, so the
    pair always stands for the handler suspended at [await soRead]. *)
Inductive Reader := HandlerRead.

Record TCPConn := mkConn {
  err : option Error;
  ended : bool;
  reader : option Reader
}.

(** [soInit(socket)]: the wrapper; the three callbacks it registers are
    [onData], [onEnd] and [onError] below. *)
Definition soInit : TCPConn := mkConn None false None.

(** Each callback returns the connection afterwards, what it delivered to
    the waiter (if there was one) and the socket calls it made. *)
Definition onData (c : TCPConn) (d : bytes)
  : TCPConn * option (Settled bytes) * list SockOp :=
  (mkConn (err c) (ended c) None,
   match reader c with
   | Some _ => Some (Resolved d)
   | None => None
   end,
   [Pause]).

Definition onEnd (c : TCPConn)
  : TCPConn * option (Settled bytes) * list SockOp :=
  match reader c with
  | Some _ => (mkConn (err c) true None, Some (Resolved []), [])
  | None => (mkConn (err c) true None, None, [])
  end.

Definition onError (c : TCPConn) (e : Error)
  : TCPConn * option (Settled bytes) * list SockOp :=
  match reader c with
  | Some _ => (mkConn (Some e) (ended c) None, Some (Rejected e), [])
  | None => (mkConn (Some e) (ended c) None, None, [])
  end.

(** [soRead(conn)]: the promise executor runs at once. *)
Definition soRead (c : TCPConn) : TCPConn * Settled bytes * list SockOp :=
  match err c with
  | Some e => (c, Rejected e, [])
  | None =>
      if ended c then (c, Resolved [], [])
      else (mkConn (err c) (ended c) (Some HandlerRead), Pending, [Resume])
  end.

(** [soWrite(conn, data)]: either rejected at once, or handed to
    [socket.write] with a completion callback. *)
Definition soWrite (c : TCPConn) (d : bytes)
  : TCPConn * Settled unit * list SockOp :=
  match err c with
  | Some e => (c, Rejected e, [])
  | None => (c, Pending, [Write d])
  end.

(** The completion callback given to [socket.write]:
    [(err) => { if (err) reject(err); else resolve(); }]. *)
Definition write_callback (r : option Error) : Settled unit :=
  match r with
  | Some e => Rejected e
  | None => Resolved tt
  end.

(** What can happen to a connection between two of its own steps. *)
Inductive ConnStep :=
| DoRead
| DoWrite (d : bytes)
| GotData (d : bytes)
| GotEnd
| GotError (e : Error).

Definition conn_step (c : TCPConn) (s : ConnStep) : TCPConn :=
  match s with
  | DoRead => fst (fst (soRead c))
  | DoWrite d => fst (fst (soWrite c d))
  | GotData d => fst (fst (onData c d))
  | GotEnd => fst (fst (onEnd c))
  | GotError e => fst (fst (onError c e))
  end.

Definition conn_steps (c : TCPConn) (l : list ConnStep) : TCPConn :=
  fold_left conn_step l c.

Definition is_error_event (s : ConnStep) : bool :=
  match s with
  | GotError _ => true
  | _ => false
  end.

(** ** Connection handler *)

(** Where [serveClient] is: about to run the loop body, suspended at one
    of its three [await]s, returned (its promise resolved), or failed
    (its promise rejected). *)
Inductive Pc :=
| AtLoopTop
| AwaitRead
| AwaitWriteBye
| AwaitWriteEcho
| Exited
| Thrown (e : Error).

(** The handler of one connection: its locals [conn] and [buf], where it
    is, and the calls that it and the callbacks of [conn] have made on
    the socket, oldest first. ([soListen] wraps the same socket in a
    [TCPConn] of its own before [serveClient] makes this one; nothing
    ever reads through that first wrapper, so its callbacks only pause
    the socket once more, and it is left out.) *)
Record Handler := mkHandler {
  conn : TCPConn;
  buf : DynBuf;
  pc : Pc;
  sock : list SockOp
}.

(** The statements after [await soRead(conn)] once it resolved with
    [d]: [bufPush], then [break] on an empty read, [continue] otherwise. *)
Definition after_read (h : Handler) (d : bytes) : Handler :=
  match bufPush (buf h) d with
  | None => mkHandler (conn h) (buf h) (Thrown RangeError) (sock h)
  | Some b =>
      if blen d =? 0 then mkHandler (conn h) b Exited (sock h)
      else mkHandler (conn h) b AtLoopTop (sock h)
  end.

(** One pass through the loop body from its top, up to the first
    [await] that suspends, or to the end of the function. *)
Definition iteration (h : Handler) : Handler :=
  let (msg, b) := cutMessage (buf h) in
  match msg with
  | None =>
      let '(c, r, ops) := soRead (conn h) in
      let h1 := mkHandler c b AwaitRead (sock h ++ ops) in
      match r with
      | Pending => h1
      | Rejected e => mkHandler c b (Thrown e) (sock h ++ ops)
      | Resolved d => after_read h1 d
      end
  | Some m =>
      if equals m quit_msg then
        let '(c, r, ops) := soWrite (conn h) bye_msg in
        match r with
        | Rejected e => mkHandler c b (Thrown e) (sock h ++ ops)
        | _ => mkHandler c b AwaitWriteBye (sock h ++ ops)
        end
      else
        let '(c, r, ops) := soWrite (conn h) (concat2 echo_prefix m) in
        match r with
        | Rejected e => mkHandler c b (Thrown e) (sock h ++ ops)
        | _ => mkHandler c b AwaitWriteEcho (sock h ++ ops)
        end
  end.

(** Run the loop body if the handler is at its top. *)
Definition run_top (h : Handler) : Handler :=
  match pc h with
  | AtLoopTop => iteration h
  | _ => h
  end.

(** [serveClient(socket)] up to its first suspension. *)
Definition serveClient : Handler :=
  iteration (mkHandler soInit empty_buf AtLoopTop []).

(** Events of the runtime: the three socket events, and the completion
    of the outstanding [socket.write]. *)
Inductive Event :=
| EvData (d : bytes)
| EvEnd
| EvError (e : Error)
| EvWriteDone (r : option Error).

(** The handler resumed by what a socket callback delivered to the
    waiter of [conn.reader]. *)
Definition resume_read (h : Handler) (r : option (Settled bytes)) : Handler :=
  match pc h, r with
  | AwaitRead, Some (Resolved d) => run_top (after_read h d)
  | AwaitRead, Some (Rejected e) =>
      mkHandler (conn h) (buf h) (Thrown e) (sock h)
  | _, _ => h
  end.

(** The effect of one event: the socket callback runs, then the handler
    continues from its [await] if the event settled it. After
    [await soWrite(conn, "Bye\n")] the handler calls [socket.destroy()]
    and, as after the echo reply, goes round the loop again. *)
Definition deliver (h : Handler) (ev : Event) : Handler :=
  match ev with
  | EvData d =>
      let '(c, r, ops) := onData (conn h) d in
      resume_read (mkHandler c (buf h) (pc h) (sock h ++ ops)) r
  | EvEnd =>
      let '(c, r, ops) := onEnd (conn h) in
      resume_read (mkHandler c (buf h) (pc h) (sock h ++ ops)) r
  | EvError e =>
      let '(c, r, ops) := onError (conn h) e in
      resume_read (mkHandler c (buf h) (pc h) (sock h ++ ops)) r
  | EvWriteDone r =>
      match pc h, write_callback r with
      | AwaitWriteBye, Rejected e
      | AwaitWriteEcho, Rejected e =>
          mkHandler (conn h) (buf h) (Thrown e) (sock h)
      | AwaitWriteBye, _ =>
          iteration (mkHandler (conn h) (buf h) AtLoopTop (sock h ++ [Destroy]))
      | AwaitWriteEcho, _ =>
          iteration (mkHandler (conn h) (buf h) AtLoopTop (sock h))
      | _, _ => h
      end
  end.

Definition run (h : Handler) (evs : list Event) : Handler :=
  fold_left deliver evs h.

(** An acknowledged write. *)
Definition ack : Event := EvWriteDone None.

(** What holds of the handler whenever it is suspended or finished: the
    buffer is well formed, the loop is not in the middle of a pass, and
    a waiter is registered exactly while the handler awaits [soRead],
    which it only does with no recorded error and the stream open. *)
Definition handler_inv (h : Handler) : Prop :=
  wf (buf h)
  /\ pc h <> AtLoopTop
  /\ (pc h = AwaitRead <-> reader (conn h) = Some HandlerRead)
  /\ (pc h = AwaitRead -> err (conn h) = None /\ ended (conn h) = false).

(** ** Sample inputs *)

Definition msg_a_b : bytes := [x61; x0a; x62].          (* "a\nb" *)
Definition msg_xy : bytes := [x78; x0a; x79; x0a].      (* "x\ny\n" *)
Definition msg_x : bytes := [x78; x0a].                 (* "x\n" *)
Definition msg_y : bytes := [x79; x0a].                 (* "y\n" *)
Definition buf_a_b : DynBuf := mkDynBuf (msg_a_b ++ alloc 29) 3.

(** ** Reading the socket log *)

(** The payloads handed to [socket.write], in order. *)
Fixpoint writes (ops : list SockOp) : list bytes :=
  match ops with
  | [] => []
  | Write d :: rest => d :: writes rest
  | _ :: rest => writes rest
  end.

(** A reply of the protocol: the acknowledgment of [quit\n], or the
    prefix followed by one complete message. *)
Definition is_reply (d : bytes) : Prop :=
  d = bye_msg \/ exists m, is_line m /\ d = echo_prefix ++ m.

(** A log in which every write is a reply and the socket is destroyed
    only after the acknowledgment of [quit\n] has been written. *)
Definition log_ok (sk : list SockOp) : Prop :=
  Forall is_reply (writes sk)
  /\ (In Destroy sk -> In (Write bye_msg) sk).

(** What the log and the buffer of a suspended handler satisfy. *)
Definition sock_inv (h : Handler) : Prop :=
  log_ok (sock h)
  /\ (pc h = AwaitRead -> ~ In nl (used (buf h)))
  /\ (pc h = AwaitWriteBye -> In (Write bye_msg) (sock h)).

(** The handler has returned or failed. *)
Definition finished (p : Pc) : bool :=
  match p with
  | Exited | Thrown _ => true
  | _ => false
  end.

Definition is_data (ev : Event) : bool :=
  match ev with
  | EvData _ => true
  | _ => false
  end.

(** The events of a client that sends the chunks one after the other,
    on a connection whose writes all succeed: each chunk is followed by
    one acknowledgment per message it completes. [u] is what is pending
    in the handler's buffer before the first chunk. *)
Fixpoint feed (u : bytes) (chunks : list bytes) : list Event :=
  match chunks with
  | [] => []
  | d :: rest =>
      EvData d :: repeat ack (length (fst (lines (u ++ d))))
        ++ feed (snd (lines (u ++ d))) rest
  end.

(** Two chunks that split one message: ["ab"] and ["c\n"]. *)
Definition chunk_ab : bytes := [x61; x62].
Definition chunk_c_nl : bytes := [x63; x0a].

(** ** Read waiters along a history of the connection *)

(** Whether a step registers a waiter in [conn.reader] ([soRead]
    suspending), and whether it settles the registered one (a callback
    finding a waiter). *)
Definition registers (c : TCPConn) (s : ConnStep) : bool :=
  match s with
  | DoRead =>
      match snd (fst (soRead c)) with
      | Pending => true
      | _ => false
      end
  | _ => false
  end.

Definition delivered (c : TCPConn) (s : ConnStep) : option (Settled bytes) :=
  match s with
  | GotData d => snd (fst (onData c d))
  | GotEnd => snd (fst (onEnd c))
  | GotError e => snd (fst (onError c e))
  | _ => None
  end.

Definition settles (c : TCPConn) (s : ConnStep) : bool :=
  match delivered c s with
  | Some _ => true
  | None => false
  end.

(** How many steps of a history do [f], each asked in the state the
    connection is in when the step happens. *)
Fixpoint count_steps (f : TCPConn -> ConnStep -> bool) (c : TCPConn)
         (l : list ConnStep) : nat :=
  match l with
  | [] => O
  | s :: rest =>
      ((if f c s then 1 else 0) + count_steps f (conn_step c s) rest)%nat
  end.

Definition waiting (c : TCPConn) : nat :=
  match reader c with
  | Some _ => 1%nat
  | None => O
  end.

(** ** The unbuffered echo server and its [newConn] wrapper

    The earlier variant of the server ([src/unnamed/part_000]): the same
    [soInit], [soRead] and [soWrite], a [serveClient] that writes every
    chunk back as it arrives, and [newConn], which runs [serveClient]
    inside [try / catch / finally]. *)

Module Unbuffered.

(** Where [serveClient] is: suspended at [await soRead] or at
    [await soWrite], returned, or failed. *)
Inductive Pc :=
| AwaitRead
| AwaitWrite
| Exited
| Thrown (e : Error).

Record Handler := mkHandler {
  conn : TCPConn;
  pc : Pc;
  sock : list SockOp
}.

(** The statements after [await soRead(conn)] once it resolved with
    [d]: [break] on an empty read, [soWrite(conn, data)] otherwise. *)
Definition after_read (h : Handler) (d : bytes) : Handler :=
  if blen d =? 0 then mkHandler (conn h) Exited (sock h)
  else
    let '(c, r, ops) := soWrite (conn h) d in
    match r with
    | Rejected e => mkHandler c (Thrown e) (sock h ++ ops)
    | _ => mkHandler c AwaitWrite (sock h ++ ops)
    end.

(** The loop body from its top up to the first [await] that suspends. *)
Definition iteration (h : Handler) : Handler :=
  let '(c, r, ops) := soRead (conn h) in
  let h1 := mkHandler c AwaitRead (sock h ++ ops) in
  match r with
  | Pending => h1
  | Rejected e => mkHandler c (Thrown e) (sock h ++ ops)
  | Resolved d => after_read h1 d
  end.

(** [serveClient(socket)] up to its first suspension. *)
Definition serveClient : Handler :=
  iteration (mkHandler soInit AwaitRead []).

Definition resume_read (h : Handler) (r : option (Settled bytes)) : Handler :=
  match pc h, r with
  | AwaitRead, Some (Resolved d) => after_read h d
  | AwaitRead, Some (Rejected e) => mkHandler (conn h) (Thrown e) (sock h)
  | _, _ => h
  end.

Definition deliver (h : Handler) (ev : Event) : Handler :=
  match ev with
  | EvData d =>
      let '(c, r, ops) := onData (conn h) d in
      resume_read (mkHandler c (pc h) (sock h ++ ops)) r
  | EvEnd =>
      let '(c, r, ops) := onEnd (conn h) in
      resume_read (mkHandler c (pc h) (sock h ++ ops)) r
  | EvError e =>
      let '(c, r, ops) := onError (conn h) e in
      resume_read (mkHandler c (pc h) (sock h ++ ops)) r
  | EvWriteDone r =>
      match pc h, write_callback r with
      | AwaitWrite, Rejected e => mkHandler (conn h) (Thrown e) (sock h)
      | AwaitWrite, _ => iteration h
      | _, _ => h
      end
  end.

Definition finished (p : Pc) : bool :=
  match p with
  | Exited | Thrown _ => true
  | _ => false
  end.

(** [newConn(socket)]: [serveClient] and whether the [finally] block has
    run. The block runs once, when the promise of [serveClient] settles,
    either way ([catch] only logs), and calls [socket.destroy()]. *)
Record NewConn := mkNewConn {
  serving : Handler;
  finalised : bool
}.

Definition finally (n : NewConn) : NewConn :=
  if negb (finalised n) && finished (pc (serving n)) then
    mkNewConn (mkHandler (conn (serving n)) (pc (serving n))
                         (sock (serving n) ++ [Destroy]))
              true
  else n.

Definition newConn : NewConn := finally (mkNewConn serveClient false).

Definition newConn_deliver (n : NewConn) (ev : Event) : NewConn :=
  finally (mkNewConn (deliver (serving n) ev) (finalised n)).

Definition newConn_run (n : NewConn) (evs : list Event) : NewConn :=
  fold_left newConn_deliver evs n.

Definition run (h : Handler) (evs : list Event) : Handler :=
  fold_left deliver evs h.

(** A client that sends the chunks one after the other while every
    write succeeds. *)
Definition echo_events (chunks : list bytes) : list Event :=
  flat_map (fun d => [EvData d; ack]) chunks.

End Unbuffered.

(** The number of [socket.destroy()] calls in a log. *)
Fixpoint destroys (ops : list SockOp) : nat :=
  match ops with
  | [] => O
  | Destroy :: rest => S (destroys rest)
  | _ :: rest => destroys rest
  end.

(** ** The callback echo server

    The first variant ([src/echo_server.ts] lines 1-28, and
    [src/unnamed/part_001]): [newConn] registers a ['data'] callback
    that writes the chunk back and ends the connection when the chunk
    contains the byte ['q']. *)

Module Callback.

(** Calls made on the socket by the ['data'] callback. *)
Inductive SockCall :=
| CallWrite (d : bytes)
| CallEnd.

(** [buf.includes(x)], that is [buf.indexOf(x) !== -1]. *)
Definition includes (d : bytes) (x : byte) : bool :=
  negb (indexOf d x =? -1).

(** The ['data'] callback: [socket.write(data)], then [socket.end()] if
    [data.includes('q')]. *)
Definition onData (d : bytes) : list SockCall :=
  CallWrite d :: (if includes d x71 then [CallEnd] else []).

(** The calls made for a sequence of ['data'] events. *)
Definition run (chunks : list bytes) : list SockCall :=
  flat_map onData chunks.

Fixpoint written (calls : list SockCall) : list bytes :=
  match calls with
  | [] => []
  | CallWrite d :: rest => d :: written rest
  | CallEnd :: rest => written rest
  end.

End Callback.

(** ** Listener adapter and accept loop *)

Module Listener.

(** One accepted connection under [main]. The ['connection'] callback of
    [soListen] wraps the socket with [soInit] and hands that [TCPConn]
    to [main], which passes only its socket to [serveClient], where a
    second [soInit] makes the handler's own [TCPConn]. Nothing reads
    through the first wrapper, but its callbacks stay registered on the
    socket, ahead of the handler's, and run first at every event. *)
Record Served := mkServed {
  wrapper : TCPConn;
  handler : Handler
}.

Definition log_calls (h : Handler) (ops : list SockOp) : Handler :=
  mkHandler (conn h) (buf h) (pc h) (sock h ++ ops).

(** An event on the socket of an accepted connection: the callback of
    the first wrapper, then the handler's. *)
Definition socket_event (c : Served) (ev : Event) : Served :=
  match ev with
  | EvData d =>
      let '(w, _, ops) := onData (wrapper c) d in
      mkServed w (deliver (log_calls (handler c) ops) ev)
  | EvEnd =>
      let '(w, _, ops) := onEnd (wrapper c) in
      mkServed w (deliver (log_calls (handler c) ops) ev)
  | EvError e =>
      let '(w, _, ops) := onError (wrapper c) e in
      mkServed w (deliver (log_calls (handler c) ops) ev)
  | EvWriteDone _ => mkServed (wrapper c) (deliver (handler c) ev)
  end.

(** The promise of the handler is rejected. *)
Definition rejected (c : Served) : bool :=
  match pc (handler c) with
  | Thrown _ => true
  | _ => false
  end.

(** The waiter stored in [listener.accepter]: [main] is the only caller
    of [soAccept] and awaits it at once. *)
Inductive Accepter := MainAccept.

Record TCPListner := mkListner {
  err : option Error;
  accepter : option Accepter
}.

(** [soListen(host, port)]: the wrapper; its callbacks are
    [onConnection] and [onServerError]. *)
Definition soListen : TCPListner := mkListner None None.

(** The ['connection'] callback wraps the socket with [soInit] and hands
    the connection to the waiter, if there is one. *)
Definition onConnection (l : TCPListner) : TCPListner * option TCPConn :=
  (mkListner (err l) None,
   match accepter l with
   | Some _ => Some soInit
   | None => None
   end).

(** The ['error'] callback of the server records the error and rejects
    the waiter, if there is one. *)
Definition onServerError (l : TCPListner) (e : Error)
  : TCPListner * option Error :=
  (mkListner (Some e) None,
   match accepter l with
   | Some _ => Some e
   | None => None
   end).

(** [soAccept(listener)] *)
Definition soAccept (l : TCPListner) : TCPListner * Settled TCPConn :=
  match err l with
  | Some e => (l, Rejected e)
  | None => (mkListner (err l) (Some MainAccept), Pending)
  end.

(** Where [main] is: suspended at [await soAccept(listener)], or failed
    (its promise rejected; [main().catch] logs ["fatal:"] and the
    process goes on). *)
Inductive MainPc :=
| AwaitAccept
| Fatal (e : Error).

(** The server process: the listener, [main], the connections accepted
    so far, in that order, the number of connections that arrived and
    were handed to nobody, and whether the process is still running.
    [main] calls [serveClient] without [await] and without [catch], so
    a handler that fails is an unhandled promise rejection, and that
    ends the process (the default of Node since version 15). *)
Record Server := mkServer {
  listener : TCPListner;
  mpc : MainPc;
  served : list Served;
  unserved : nat;
  running : bool
}.

(** The top of the loop of [main]: [await soAccept(listener)]. *)
Definition accept_loop (s : Server) : Server :=
  let (l, r) := soAccept (listener s) in
  match r with
  | Rejected e => mkServer l (Fatal e) (served s) (unserved s) (running s)
  | _ => mkServer l AwaitAccept (served s) (unserved s) (running s)
  end.

(** [main()] up to its first suspension. *)
Definition main : Server :=
  accept_loop (mkServer soListen AwaitAccept [] O true).

Inductive ServerEvent :=
| Connection
| ServerError (e : Error)
| OnSocket (i : nat) (ev : Event).

(** An event on the socket of the [i]-th accepted connection. *)
Fixpoint on_socket (i : nat) (ev : Event) (cs : list Served)
  : list Served :=
  match cs, i with
  | [], _ => []
  | c :: rest, O => socket_event c ev :: rest
  | c :: rest, S j => c :: on_socket j ev rest
  end.

(** The effect of one event on a running process. An accepted
    connection resumes [main], which starts [serveClient(conn.socket)]
    and goes round its loop to the next [soAccept]. After an event on a
    socket, a rejected handler ends the process. *)
Definition step_running (s : Server) (ev : ServerEvent) : Server :=
  match ev with
  | Connection =>
      let (l, r) := onConnection (listener s) in
      match r, mpc s with
      | Some c, AwaitAccept =>
          accept_loop
            (mkServer l AwaitAccept (served s ++ [mkServed c serveClient])
                      (unserved s) true)
      | _, _ => mkServer l (mpc s) (served s) (S (unserved s)) true
      end
  | ServerError e =>
      let (l, r) := onServerError (listener s) e in
      match r, mpc s with
      | Some e', AwaitAccept =>
          mkServer l (Fatal e') (served s) (unserved s) true
      | _, _ => mkServer l (mpc s) (served s) (unserved s) true
      end
  | OnSocket i ev =>
      let cs := on_socket i ev (served s) in
      mkServer (listener s) (mpc s) cs (unserved s)
               (negb (existsb rejected cs))
  end.

(** Nothing happens in a process that has ended. *)
Definition step (s : Server) (ev : ServerEvent) : Server :=
  if running s then step_running s ev else s.

Definition run (s : Server) (evs : list ServerEvent) : Server :=
  fold_left step evs s.

Definition is_connection (ev : ServerEvent) : bool :=
  match ev with
  | Connection => true
  | _ => false
  end.

Definition is_server_error (ev : ServerEvent) : bool :=
  match ev with
  | ServerError _ => true
  | _ => false
  end.

(** The number of ['connection'] events in a history. *)
Definition connections (evs : list ServerEvent) : nat :=
  length (filter is_connection evs).

End Listener.

(** ** The life of the socket

    What becomes of the [net.Socket] of a connection, whether the
    program asks for it or not. [main] creates the server with
    [net.createServer({ pauseOnConnect: true })], so [allowHalfOpen]
    keeps its default, false: when the stream ends (['end']) the runtime
    ends the writable side too and the socket closes. A socket that
    emits ['error'] is destroyed by the runtime, and so is a socket
    whose write fails, which is when the completion callback of
    [socket.write] receives an error. Apart from that a socket closes
    when the program calls [socket.destroy()]. The runtime never emits
    ['data'] with an empty chunk. *)








(** Every [destroy] in the log comes after the acknowledgment of
    [quit\n]: the last write before it is [Bye\n]. *)
Definition destroy_after_bye (sk : list SockOp) : Prop :=
  forall a b, sk = a ++ Destroy :: b -> exists w, writes a = w ++ [bye_msg].

(** The order of the calls in the log of a suspended handler: the above,
    and while the handler awaits the write of [Bye\n] that write is the
    last one. *)
Definition order_inv (h : Handler) : Prop :=
  destroy_after_bye (sock h)
  /\ (pc h = AwaitWriteBye -> exists w, writes (sock h) = w ++ [bye_msg]).

(** * Lemmas *)

(** ** Lemmas on the primitives *)

Lemma blen_app (a b : bytes) : blen (a ++ b) = blen a + blen b.
Proof. unfold blen. rewrite length_app. lia. Qed.

Lemma blen_nonneg (a : bytes) : 0 <= blen a.
Proof. unfold blen. lia. Qed.

Lemma blen_alloc (n : Z) : blen (alloc n) = Z.max n 0.
Proof. unfold blen, alloc. rewrite repeat_length. lia. Qed.

Lemma rel_index_in (len k : Z) : 0 <= k <= len -> rel_index len k = k.
Proof. unfold rel_index. intros H. destruct (Z.ltb_spec k 0); lia. Qed.

Lemma subarray_prefix (a : bytes) (e : Z) :
  0 <= e <= blen a -> subarray a 0 e = firstn (Z.to_nat e) a.
Proof.
  intros H. unfold subarray.
  rewrite (@rel_index_in (blen a) 0), (@rel_index_in (blen a) e) by lia.
  rewrite Z.sub_0_r. reflexivity.
Qed.

Lemma subarray_app_prefix (u f : bytes) : subarray (u ++ f) 0 (blen u) = u.
Proof.
  rewrite subarray_prefix by (rewrite blen_app; pose proof (blen_nonneg u);
                              pose proof (blen_nonneg f); lia).
  unfold blen. rewrite Nat2Z.id, firstn_app, Nat.sub_diag, firstn_all, firstn_0.
  apply app_nil_r.
Qed.

Lemma index_from_notin (x : byte) (a : bytes) (i : Z) :
  ~ In x a -> index_from x a i = -1.
Proof.
  revert i. induction a as [|y t IH]; intros i Hn; simpl; [reflexivity|].
  destruct (Byte.eqb y x) eqn:E.
  - apply Byte.byte_dec_bl in E. subst. exfalso. apply Hn. now left.
  - apply IH. intros Hin. apply Hn. now right.
Qed.

Lemma index_from_first (x : byte) (pre post : bytes) (i : Z) :
  ~ In x pre -> index_from x (pre ++ x :: post) i = i + blen pre.
Proof.
  revert i. induction pre as [|y t IH]; intros i Hn; simpl.
  - rewrite (Byte.byte_dec_lb (eq_refl x)). unfold blen. simpl. lia.
  - destruct (Byte.eqb y x) eqn:E.
    + apply Byte.byte_dec_bl in E. subst. exfalso. apply Hn. now left.
    + rewrite IH by (intros Hin; apply Hn; now right).
      unfold blen. simpl length. lia.
Qed.

(** A byte that occurs in a list has a first occurrence. *)
Lemma first_occurrence (x : byte) (a : bytes) :
  In x a -> exists pre post, a = pre ++ x :: post /\ ~ In x pre.
Proof.
  induction a as [|y t IH]; intros Hin; [destruct Hin|].
  destruct (Byte.byte_eq_dec y x) as [->|Hne].
  - exists [], t. split; [reflexivity | intros []].
  - destruct Hin as [->|Hin]; [congruence|].
    destruct (IH Hin) as (pre & post & -> & Hn).
    exists (y :: pre), post. split; [reflexivity|].
    intros [H|H]; [congruence | now apply Hn].
Qed.

Lemma copyWithin_shift (pre post f : bytes) :
  copyWithin (pre ++ post ++ f) 0 (blen pre) (blen (pre ++ post))
  = post ++ skipn (length post) (pre ++ post ++ f).
Proof.
  unfold copyWithin.
  pose proof (blen_nonneg pre). pose proof (blen_nonneg post).
  pose proof (blen_nonneg f).
  rewrite !rel_index_in by (rewrite !blen_app; lia).
  rewrite !blen_app.
  replace (Z.min (blen pre + blen post - blen pre)
                 (blen pre + (blen post + blen f) - 0)) with (blen post) by lia.
  destruct (Z.ltb_spec 0 (blen post)) as [Hpos|Hz].
  - simpl. f_equal.
    + unfold blen. rewrite !Nat2Z.id.
      rewrite skipn_app, Nat.sub_diag, skipn_all. simpl.
      rewrite firstn_app, Nat.sub_diag, firstn_all, firstn_0.
      apply app_nil_r.
    + unfold blen. rewrite Nat2Z.id. reflexivity.
  - assert (post = []) as ->
        by (destruct post; [reflexivity | unfold blen in Hz; simpl in Hz; lia]).
    reflexivity.
Qed.

Lemma copy_into (u f d : bytes) :
  blen d <= blen f ->
  copy d (u ++ f) (blen u) = Some (u ++ d ++ skipn (length d) f).
Proof.
  intros Hfit. unfold copy.
  pose proof (blen_nonneg u). pose proof (blen_nonneg d).
  destruct (Z.ltb_spec (blen u) 0); [lia|].
  rewrite blen_app.
  destruct (Z.leb_spec (blen u + blen f) (blen u)) as [Hle|Hgt].
  - assert (f = []) as ->
        by (destruct f; [reflexivity | unfold blen in Hle; simpl in Hle; lia]).
    assert (d = []) as ->
        by (destruct d; [reflexivity | unfold blen in Hfit; simpl in Hfit; lia]).
    reflexivity.
  - replace (Z.min (blen d) (blen u + blen f - blen u)) with (blen d) by lia.
    f_equal. unfold blen. rewrite <- Nat2Z.inj_add, !Nat2Z.id.
    rewrite firstn_app, Nat.sub_diag, firstn_all, firstn_0, app_nil_r.
    rewrite firstn_all. f_equal. f_equal.
    rewrite skipn_app.
    rewrite skipn_all2 by lia. simpl. f_equal. lia.
Qed.

Lemma copy_grow (a : bytes) (n : Z) :
  blen a <= n ->
  copy a (alloc n) 0 = Some (a ++ repeat x00 (Z.to_nat n - length a)).
Proof.
  intros Hle.
  assert (alloc n = [] ++ repeat x00 (Z.to_nat n)) as -> by reflexivity.
  change 0 with (blen []).
  rewrite copy_into.
  - simpl. do 2 f_equal.
    clear. generalize (Z.to_nat n) as m. intros m. revert m.
    induction a as [|y t IH]; intros m; simpl.
    + now rewrite Nat.sub_0_r.
    + destruct m; simpl; [reflexivity | apply IH].
  - unfold blen in *. rewrite repeat_length. lia.
Qed.

(** ** The doubling loop *)

Lemma scaled_pos (k : nat) : 32 <= scaled k.
Proof.
  unfold scaled. assert (0 < 2 ^ Z.of_nat k) by (apply Z.pow_pos_nonneg; lia). lia.
Qed.

Lemma scaled_S (k : nat) : scaled (S k) = scaled k * 2.
Proof. unfold scaled. rewrite Nat2Z.inj_succ, Z.pow_succ_r by lia. lia. Qed.

Lemma scaled_mono (j k : nat) : (j <= k)%nat -> scaled j <= scaled k.
Proof.
  intros H. unfold scaled.
  assert (2 ^ Z.of_nat j <= 2 ^ Z.of_nat k) by (apply Z.pow_le_mono_r; lia). lia.
Qed.

(** With enough fuel the loop stops by itself: the result is the start
    value doubled [j] times, it accommodates [newLen], and the loop did
    not double once more than needed. *)
Lemma grow_cap_spec (fuel : nat) (cap newLen : Z) :
  0 < cap -> newLen <= cap * 2 ^ Z.of_nat fuel ->
  exists j : nat,
    grow_cap fuel cap newLen = cap * 2 ^ Z.of_nat j
    /\ newLen <= cap * 2 ^ Z.of_nat j
    /\ (j = O \/ cap * 2 ^ Z.of_nat j < 2 * newLen).
Proof.
  revert cap. induction fuel as [|f IH]; intros cap Hpos Hfuel.
  - exists O. simpl in *. repeat split; lia.
  - simpl grow_cap. destruct (Z.ltb_spec cap newLen) as [Hlt|Hge].
    + destruct (IH (cap * 2)) as (j & Hr & Hle & Hmin); [lia| |].
      * rewrite Nat2Z.inj_succ, Z.pow_succ_r in Hfuel by lia. lia.
      * exists (S j). rewrite Nat2Z.inj_succ, Z.pow_succ_r by lia.
        replace (cap * (2 * 2 ^ Z.of_nat j)) with (cap * 2 * 2 ^ Z.of_nat j) by lia.
        repeat split; try assumption. right.
        destruct Hmin as [->|Hmin]; [|assumption].
        change (Z.of_nat 0) with 0. rewrite Z.pow_0_r. lia.
    + exists O. simpl. rewrite Z.mul_1_r. repeat split; lia.
Qed.

(** The fuel [bufPush] gives the loop is enough. *)
Lemma fuel_enough (cap newLen : Z) :
  32 <= cap -> newLen <= cap * 2 ^ Z.of_nat (Z.to_nat newLen).
Proof.
  intros Hc. destruct (Z.le_gt_cases newLen 0) as [Hn|Hn].
  - assert (0 < 2 ^ Z.of_nat (Z.to_nat newLen)) by (apply Z.pow_pos_nonneg; lia). nia.
  - rewrite Z2Nat.id by lia.
    assert (newLen < 2 ^ newLen) by (apply Z.pow_gt_lin_r; lia). nia.
Qed.

Lemma grow_cap_reaches (cap newLen : Z) :
  32 <= cap ->
  newLen <= grow_cap (Z.to_nat newLen) cap newLen
  /\ cap <= grow_cap (Z.to_nat newLen) cap newLen.
Proof.
  intros Hc.
  destruct (@grow_cap_spec (Z.to_nat newLen) cap newLen) as (j & -> & Hle & _);
    [lia | now apply fuel_enough |].
  split; [assumption|].
  assert (1 <= 2 ^ Z.of_nat j) by (apply Z.lt_pred_le, Z.pow_pos_nonneg; lia). nia.
Qed.

Lemma new_cap_ge (c n : Z) : 0 <= c -> n <= new_cap c n /\ c <= new_cap c n.
Proof.
  intros Hc. unfold new_cap. destruct (Z.ltb_spec c n); [|lia].
  destruct (@grow_cap_reaches (Z.max c 32) n); lia.
Qed.

(** ** Contracts of [bufPush] and [bufPop] on a well-formed buffer

    A well-formed buffer is [u ++ f] with [size = |u|]: [u] the pending
    bytes and [f] the free capacity. *)

Lemma wf_split (b : DynBuf) :
  wf b ->
  b = mkDynBuf (used b ++ skipn (Z.to_nat (size b)) (data b)) (blen (used b)).
Proof.
  intros Hwf. destruct b as [dat sz]. unfold wf, used in *. simpl in *.
  rewrite subarray_prefix by lia. rewrite firstn_skipn. f_equal.
  unfold blen in *. rewrite length_firstn. lia.
Qed.

Lemma used_split (u f : bytes) : used (mkDynBuf (u ++ f) (blen u)) = u.
Proof. apply subarray_app_prefix. Qed.

Lemma wf_mk (u f : bytes) : wf (mkDynBuf (u ++ f) (blen u)).
Proof.
  unfold wf. simpl. rewrite blen_app.
  pose proof (blen_nonneg u). pose proof (blen_nonneg f). lia.
Qed.

Lemma bufPush_spec (u f d : bytes) :
  exists f',
    bufPush (mkDynBuf (u ++ f) (blen u)) d
    = Some (mkDynBuf (u ++ d ++ f') (blen u + blen d))
    /\ blen (u ++ d ++ f') = new_cap (blen (u ++ f)) (blen u + blen d).
Proof.
  unfold bufPush, new_cap. simpl data. simpl size.
  pose proof (blen_nonneg u). pose proof (blen_nonneg f).
  pose proof (blen_nonneg d).
  destruct (Z.ltb_spec (blen (u ++ f)) (blen u + blen d)) as [Hlt|Hge].
  - set (cap := grow_cap _ _ _).
    destruct (@grow_cap_reaches (Z.max (blen (u ++ f)) 32) (blen u + blen d))
      as [Hn Hc]; [lia|]. fold cap in Hn, Hc.
    rewrite copy_grow by lia. rewrite <- app_assoc.
    set (z := repeat x00 _).
    assert (Hz : blen z = cap - blen (u ++ f)).
    { unfold z, blen. rewrite repeat_length.
      unfold blen in Hc. lia. }
    rewrite blen_app in *.
    rewrite copy_into by (rewrite blen_app; lia).
    eexists. split; [reflexivity|].
    rewrite !blen_app. unfold blen at 3. rewrite length_skipn.
    fold (blen d). unfold blen in *. rewrite length_app in *. lia.
  - rewrite blen_app in *.
    rewrite copy_into by lia.
    eexists. split; [reflexivity|].
    rewrite !blen_app. unfold blen at 3. rewrite length_skipn.
    unfold blen in *. lia.
Qed.

Lemma bufPop_spec (pre post f : bytes) :
  bufPop (mkDynBuf (pre ++ post ++ f) (blen (pre ++ post))) (blen pre)
  = mkDynBuf (post ++ skipn (length post) (pre ++ post ++ f)) (blen post).
Proof.
  unfold bufPop. simpl data. simpl size.
  rewrite copyWithin_shift. f_equal. rewrite blen_app. lia.
Qed.

(** ** Framing *)

Lemma eqb_nl_false (x : byte) : x <> nl -> Byte.eqb x nl = false.
Proof.
  intros H. destruct (Byte.eqb x nl) eqn:E; [|reflexivity].
  apply Byte.byte_dec_bl in E. contradiction.
Qed.

Lemma eqb_nl_true (x : byte) : Byte.eqb x nl = true -> x = nl.
Proof. apply Byte.byte_dec_bl. Qed.

Lemma lines_notin (l : bytes) : ~ In nl l -> lines l = ([], l).
Proof.
  induction l as [|x t IH]; intros Hn; [reflexivity|]. simpl.
  rewrite IH by (intros H; apply Hn; now right).
  rewrite eqb_nl_false by (intros ->; apply Hn; now left). reflexivity.
Qed.

Lemma lines_first (pre post : bytes) :
  ~ In nl pre ->
  lines (pre ++ nl :: post)
  = ((pre ++ [nl]) :: fst (lines post), snd (lines post)).
Proof.
  induction pre as [|x t IH]; intros Hn; simpl.
  - destruct (lines post). reflexivity.
  - rewrite IH by (intros H; apply Hn; now right). simpl.
    rewrite eqb_nl_false by (intros ->; apply Hn; now left). reflexivity.
Qed.

Lemma lines_sound (l : bytes) :
  length (fst (lines l)) = count_occ Byte.byte_eq_dec l nl
  /\ concat (fst (lines l)) ++ snd (lines l) = l
  /\ Forall is_line (fst (lines l))
  /\ ~ In nl (snd (lines l)).
Proof.
  induction l as [|x t (Hlen & Hcat & Hall & Hrest)]; simpl.
  - repeat split; auto.
  - destruct (lines t) as [ms r]. simpl in *.
    destruct (Byte.eqb x nl) eqn:E.
    + apply eqb_nl_true in E. subst x. simpl.
      destruct (Byte.byte_eq_dec nl nl); [|congruence].
      repeat split; try congruence; auto.
      constructor; [|assumption]. exists []. split; [reflexivity | intros []].
    + assert (Hx : x <> nl) by (intros ->; discriminate E).
      destruct (Byte.byte_eq_dec x nl); [contradiction|].
      destruct ms as [|m ms']; simpl in *.
      * repeat split; try congruence; auto. intros [H|H]; auto.
      * repeat split; try congruence.
        inversion Hall as [|? ? (body & -> & Hb) Hall']; subst.
        constructor; [|assumption].
        exists (x :: body). split; [reflexivity|].
        intros [H|H]; auto.
Qed.

Lemma cutMessage_none (b : DynBuf) :
  ~ In nl (used b) -> cutMessage b = (None, b).
Proof.
  intros Hn. unfold cutMessage. fold (used b).
  unfold indexOf. rewrite index_from_notin by assumption. reflexivity.
Qed.

Lemma cutMessage_some (pre post f : bytes) :
  ~ In nl pre ->
  cutMessage (mkDynBuf ((pre ++ nl :: post) ++ f) (blen (pre ++ nl :: post)))
  = (Some (pre ++ [nl]),
     mkDynBuf (post ++ skipn (length post) ((pre ++ nl :: post) ++ f))
              (blen post)).
Proof.
  intros Hn. unfold cutMessage. simpl data. simpl size.
  rewrite subarray_app_prefix. unfold indexOf.
  rewrite index_from_first by assumption.
  pose proof (blen_nonneg pre).
  destruct (Z.ltb_spec (0 + blen pre) 0); [lia|].
  assert (Hidx : 0 + blen pre + 1 = blen (pre ++ [nl]))
    by (rewrite blen_app; reflexivity).
  rewrite Hidx.
  assert (Hd : (pre ++ nl :: post) ++ f = (pre ++ [nl]) ++ post ++ f)
    by (rewrite <- !app_assoc; reflexivity).
  assert (Hs : blen (pre ++ nl :: post) = blen ((pre ++ [nl]) ++ post))
    by (rewrite <- app_assoc; reflexivity).
  rewrite Hd, Hs, subarray_app_prefix, bufPop_spec. reflexivity.
Qed.

Lemma cuts_lines (n : nat) :
  forall l f, (length l <= n)%nat ->
  exists b',
    cuts (S (length (fst (lines l)))) (mkDynBuf (l ++ f) (blen l))
    = (map Some (fst (lines l)) ++ [None], b')
    /\ used b' = snd (lines l).
Proof.
  induction n as [|n IH]; intros l f Hlen.
  - destruct l; [|simpl in Hlen; lia]. simpl lines. simpl fst.
    exists (mkDynBuf ([] ++ f) (blen [])). split; [|apply used_split].
    cbn [cuts length]. rewrite cutMessage_none; [reflexivity|].
    rewrite used_split. intros [].
  - destruct (in_dec Byte.byte_eq_dec nl l) as [Hin|Hn].
    + destruct (first_occurrence _ _ Hin) as (pre & post & -> & Hpre).
      rewrite lines_first by assumption. simpl fst. simpl snd.
      destruct (IH post (skipn (length post) ((pre ++ nl :: post) ++ f)))
        as (b' & Hc & Hu).
      { rewrite length_app in Hlen. simpl in Hlen. lia. }
      exists b'. split; [|assumption].
      change (cuts (S (length ((pre ++ [nl]) :: fst (lines post)))) ?b)
        with (let (r, b1) := cutMessage b in
              let (rs, b2) := cuts (S (length (fst (lines post)))) b1 in
              (r :: rs, b2)).
      rewrite cutMessage_some by assumption. rewrite Hc. reflexivity.
    + rewrite lines_notin by assumption. simpl fst. simpl snd.
      exists (mkDynBuf (l ++ f) (blen l)). split; [|apply used_split].
      cbn [cuts length]. rewrite cutMessage_none; [reflexivity|].
      now rewrite used_split.
Qed.

Lemma pushAll_spec (chunks : list bytes) :
  forall u f, exists f',
    pushAll (mkDynBuf (u ++ f) (blen u)) chunks
    = Some (mkDynBuf ((u ++ concat chunks) ++ f') (blen (u ++ concat chunks))).
Proof.
  induction chunks as [|d rest IH]; intros u f; simpl.
  - exists f. now rewrite app_nil_r.
  - destruct (bufPush_spec u f d) as (f1 & -> & _).
    assert (Hb : mkDynBuf (u ++ d ++ f1) (blen u + blen d)
                 = mkDynBuf ((u ++ d) ++ f1) (blen (u ++ d)))
      by (rewrite blen_app, app_assoc; reflexivity).
    rewrite Hb. destruct (IH (u ++ d) f1) as (f' & ->).
    exists f'. now rewrite <- !app_assoc.
Qed.

Lemma cutMessage_unfold (b : DynBuf) (pre post : bytes) :
  used b = pre ++ nl :: post -> ~ In nl pre ->
  indexOf (used b) nl = blen pre
  /\ cutMessage b = (Some (subarray (data b) 0 (blen pre + 1)),
                     bufPop b (blen pre + 1)).
Proof.
  intros Hu Hn.
  assert (Hi : indexOf (used b) nl = blen pre).
  { rewrite Hu. unfold indexOf. rewrite index_from_first by assumption. lia. }
  split; [assumption|].
  unfold cutMessage. fold (used b). rewrite Hi.
  pose proof (blen_nonneg pre).
  destruct (Z.ltb_spec (blen pre) 0); [lia | reflexivity].
Qed.

(** ** Histories *)

Lemma scaled_add (k j : nat) : scaled (k + j) = scaled k * 2 ^ Z.of_nat j.
Proof.
  unfold scaled. rewrite Nat2Z.inj_add, Z.pow_add_r by lia. lia.
Qed.

Lemma scaled_lt_inv (i k : nat) : scaled k < scaled (S i) -> (k <= i)%nat.
Proof.
  intros H. destruct (Nat.le_gt_cases k i) as [|Hgt]; [assumption|].
  pose proof (@scaled_mono (S i) k Hgt). lia.
Qed.

Lemma new_cap_least (c p n : Z) :
  (p = 0 -> c = 0) -> (0 < p -> least_scaled c p) -> 0 <= p -> 0 <= n ->
  (Z.max p n = 0 -> new_cap c n = 0)
  /\ (0 < Z.max p n -> least_scaled (new_cap c n) (Z.max p n)).
Proof.
  intros H0 Hp Hp0 Hn0. unfold new_cap.
  assert (Hpc : p <= c).
  { destruct (Z.eq_dec p 0) as [->|]; [rewrite H0; lia|].
    destruct Hp as (k & _ & Hle & _); lia. }
  destruct (Z.ltb_spec c n) as [Hlt|Hge].
  - split; [lia|]. intros _. replace (Z.max p n) with n by lia.
    assert (Hstart : exists k0, Z.max c 32 = scaled k0
                                /\ (p = 0 \/ scaled k0 < n)).
    { destruct (Z.eq_dec p 0) as [->|Hne].
      - exists O. rewrite H0 by reflexivity. split; [reflexivity | now left].
      - destruct Hp as (k & -> & _ & _); [lia|]. exists k.
        pose proof (scaled_pos k). split; [lia | now right]. }
    destruct Hstart as (k0 & Hs & Hcase). rewrite Hs.
    destruct (@grow_cap_spec (Z.to_nat n) (scaled k0) n) as (j & -> & Hle & Hmin).
    { pose proof (scaled_pos k0). lia. }
    { apply fuel_enough, scaled_pos. }
    rewrite <- scaled_add in *.
    exists (k0 + j)%nat. repeat split; [assumption|]. intros i Hi.
    destruct Hmin as [->|Hmin].
    + rewrite Nat.add_0_r in *. destruct Hcase as [->|Hc]; [|lia].
      rewrite H0 in Hs by reflexivity.
      pose proof (scaled_pos i). change (Z.max 0 32) with 32 in Hs. lia.
    + apply scaled_mono, scaled_lt_inv. rewrite scaled_S. lia.
  - split.
    + intros Hz. apply H0. lia.
    + intros Hpos. assert (0 < p) as Hpp.
      { destruct (Z.eq_dec p 0) as [->|]; [|lia].
        rewrite H0 in Hge by reflexivity. lia. }
      destruct (Hp Hpp) as (k & -> & Hle & Hmin).
      exists k. repeat split; [lia|]. intros j Hj. apply Hmin. lia.
Qed.

Lemma buf_inv_push (b : DynBuf) (p : Z) (d : bytes) :
  buf_inv b p ->
  exists b',
    bufPush b d = Some b'
    /\ buf_inv b' (Z.max p (size b'))
    /\ size b' = size b + blen d
    /\ blen (data b') = new_cap (blen (data b)) (size b + blen d).
Proof.
  intros (Hwf & Hsz & H0 & Hp).
  assert (Hsize : size b = blen (used b)).
  { rewrite (wf_split Hwf) at 1. reflexivity. }
  assert (Hdata : data b = used b ++ skipn (Z.to_nat (size b)) (data b)).
  { rewrite (wf_split Hwf) at 1. reflexivity. }
  rewrite (wf_split Hwf).
  destruct (bufPush_spec (used b) (skipn (Z.to_nat (size b)) (data b)) d)
    as (f' & -> & Hcap).
  eexists. split; [reflexivity|]. simpl size. simpl data.
  rewrite <- Hdata in *. rewrite <- Hsize in *.
  pose proof (blen_nonneg d). destruct Hwf as [Hlo Hhi].
  destruct (@new_cap_least (blen (data b)) p (size b + blen d))
    as [Hz Hl]; try assumption; try lia.
  repeat split; try assumption; try lia.
  - unfold wf. simpl. lia.
  - unfold wf. simpl. rewrite Hcap.
    destruct (@new_cap_ge (blen (data b)) (size b + blen d)); lia.
  - simpl. lia.
  - simpl. rewrite Hcap. assumption.
  - simpl. rewrite Hcap. assumption.
Qed.

Lemma bufPop_wf (b : DynBuf) (n : Z) :
  wf b -> 0 <= n <= size b ->
  data (bufPop b n)
  = skipn (Z.to_nat n) (used b) ++ skipn (Z.to_nat (size b - n)) (data b)
  /\ blen (data (bufPop b n)) = blen (data b)
  /\ used (bufPop b n) = skipn (Z.to_nat n) (used b).
Proof.
  intros Hwf Hn.
  assert (Hsize : size b = blen (used b)).
  { rewrite (wf_split Hwf) at 1. reflexivity. }
  assert (Hdata : data b = used b ++ skipn (Z.to_nat (size b)) (data b)).
  { rewrite (wf_split Hwf) at 1. reflexivity. }
  set (u := used b) in *. set (f := skipn (Z.to_nat (size b)) (data b)) in *.
  set (pre := firstn (Z.to_nat n) u). set (post := skipn (Z.to_nat n) u).
  assert (Hu : u = pre ++ post) by (symmetry; apply firstn_skipn).
  assert (Hpre : blen pre = n).
  { unfold pre, blen. rewrite length_firstn. unfold blen in Hsize. lia. }
  assert (Hpost : Z.to_nat (size b - n) = length post).
  { unfold post. rewrite length_skipn. unfold blen in Hsize. lia. }
  assert (Hb : b = mkDynBuf (pre ++ post ++ f) (blen (pre ++ post))).
  { destruct b as [dat sz]. simpl in *. rewrite app_assoc, <- Hu.
    f_equal; assumption. }
  assert (Hpop : bufPop b n
                 = mkDynBuf (post ++ skipn (length post) (data b)) (blen post)).
  { rewrite Hb at 1. rewrite <- Hpre at 1. rewrite bufPop_spec.
    do 3 f_equal. rewrite Hdata, Hu, <- app_assoc. reflexivity. }
  rewrite Hpop. simpl data. rewrite Hpost. repeat split.
  - rewrite blen_app. unfold blen. rewrite length_skipn.
    assert (length post <= length (data b))%nat; [|lia].
    rewrite Hdata, Hu, !length_app. lia.
  - apply used_split.
Qed.

Lemma buf_inv_pop (b : DynBuf) (p n : Z) :
  buf_inv b p -> 0 <= n <= size b ->
  buf_inv (bufPop b n) (Z.max p (size (bufPop b n)))
  /\ blen (data (bufPop b n)) = blen (data b).
Proof.
  intros (Hwf & Hsz & H0 & Hp) Hn.
  destruct (bufPop_wf Hwf Hn) as (_ & Hlen & _).
  split; [|assumption].
  unfold buf_inv, wf. rewrite Hlen. simpl size.
  replace (Z.max p (size b - n)) with p by lia.
  destruct Hwf. repeat split; try assumption; lia.
Qed.

Lemma run_ops_inv (ops : list BufOp) :
  forall b p b' p', buf_inv b p -> 0 <= p ->
  run_ops ops b p = Some (b', p') -> buf_inv b' p' /\ 0 <= p'.
Proof.
  induction ops as [|op rest IH]; intros b p b' p' Hinv Hp0 Hrun; simpl in Hrun.
  - inversion Hrun; subst. now split.
  - destruct (op_ok b op) eqn:Hok; [|discriminate].
    destruct op as [d|n]; simpl in Hrun, Hok.
    + destruct (buf_inv_push d Hinv) as (b1 & Hpush & Hinv1 & _).
      rewrite Hpush in Hrun. eapply IH; [exact Hinv1 | lia | exact Hrun].
    + apply andb_prop in Hok. destruct Hok as [H1 H2].
      apply Z.leb_le in H1, H2.
      destruct (@buf_inv_pop b p n Hinv) as [Hinv1 _]; [lia|].
      eapply IH; [exact Hinv1 | lia | exact Hrun].
Qed.

Lemma buf_inv_empty : buf_inv empty_buf 0.
Proof.
  unfold buf_inv, wf, empty_buf. simpl. repeat split; intros; try lia.
  reflexivity.
Qed.

(** ** Lemmas on the connection adapter and the handler *)

Lemma equals_false (a b : bytes) : a <> b -> equals a b = false.
Proof.
  intros H. unfold equals. destruct (list_eq_dec Byte.byte_eq_dec a b);
    [contradiction | reflexivity].
Qed.

Lemma conn_step_err (c : TCPConn) (s : ConnStep) :
  err (conn_step c s)
  = match s with
    | GotError e => Some e
    | _ => err c
    end.
Proof.
  destruct c as [[e|] en r], s; simpl; try reflexivity;
    destruct en, r; reflexivity.
Qed.

Lemma conn_steps_latched (steps : list ConnStep) :
  forall c e, err c = Some e ->
  exists e', err (conn_steps c steps) = Some e'
             /\ (existsb is_error_event steps = false -> e' = e).
Proof.
  induction steps as [|s rest IH]; intros c e He; simpl.
  - exists e. split; [assumption | reflexivity].
  - pose proof (conn_step_err c s) as Hs.
    destruct s; cbn [existsb is_error_event orb];
      try (rewrite He in Hs; destruct (IH _ _ Hs) as (e' & H1 & H2);
           exists e'; split; [exact H1 | exact H2]).
    destruct (IH _ _ Hs) as (e' & H1 & _). exists e'. split;
      [exact H1 | discriminate].
Qed.

Lemma conn_step_ended (c : TCPConn) (s : ConnStep) :
  ended c = true -> ended (conn_step c s) = true.
Proof.
  destruct c as [[e|] en r], s; simpl; intros ->; try reflexivity;
    destruct r; reflexivity.
Qed.

Lemma conn_steps_ended (steps : list ConnStep) :
  forall c, ended c = true -> ended (conn_steps c steps) = true.
Proof.
  induction steps as [|s rest IH]; intros c H; simpl; [assumption|].
  apply IH, conn_step_ended, H.
Qed.

Lemma soRead_rejects (c : TCPConn) (e : Error) :
  err c = Some e -> soRead c = (c, Rejected e, []).
Proof. unfold soRead. now intros ->. Qed.

Lemma soWrite_rejects (c : TCPConn) (e : Error) (d : bytes) :
  err c = Some e -> soWrite c d = (c, Rejected e, []).
Proof. unfold soWrite. now intros ->. Qed.

(** Draining: from the top of the loop, with the pending bytes [l] in the
    buffer, no recorded error and the stream open, the handler answers
    each complete message of [l] as its write is acknowledged, and only
    then asks the socket for more. *)
Lemma drain_echo (n : nat) :
  forall l f r sk, (length l <= n)%nat ->
  Forall (fun m => m <> quit_msg) (fst (lines l)) ->
  exists f',
    run (iteration (mkHandler (mkConn None false r)
                              (mkDynBuf (l ++ f) (blen l)) AtLoopTop sk))
        (repeat (EvWriteDone None) (length (fst (lines l))))
    = mkHandler (mkConn None false (Some HandlerRead))
                (mkDynBuf (snd (lines l) ++ f') (blen (snd (lines l))))
                AwaitRead
                (sk ++ map (fun m => Write (echo_prefix ++ m)) (fst (lines l))
                    ++ [Resume]).
Proof.
  induction n as [|n IH]; intros l f r sk Hlen Hq.
  - destruct l; [|simpl in Hlen; lia]. exists f.
    cbn [lines fst snd length repeat run fold_left map].
    unfold iteration. cbn [buf conn sock].
    rewrite cutMessage_none by (rewrite used_split; intros []).
    reflexivity.
  - destruct (in_dec Byte.byte_eq_dec nl l) as [Hin|Hn].
    + destruct (first_occurrence _ _ Hin) as (pre & post & -> & Hpre).
      rewrite lines_first in * by assumption. cbn [fst snd] in *.
      inversion Hq as [|? ? Hm Hq']; subst.
      destruct (IH post (skipn (length post) ((pre ++ nl :: post) ++ f)) r
                   (sk ++ [Write (echo_prefix ++ pre ++ [nl])]))
        as (f' & Hrun); [rewrite length_app in Hlen; simpl in Hlen; lia
                        | assumption |].
      exists f'.
      cbn [length repeat map]. unfold iteration at 1. cbn [buf conn sock].
      rewrite cutMessage_some by assumption.
      rewrite equals_false by assumption.
      cbn [soWrite err run fold_left deliver pc write_callback conn buf sock].
      unfold run in Hrun. unfold concat2. rewrite Hrun.
      rewrite <- !app_assoc. reflexivity.
    + exists f. rewrite lines_notin by assumption.
      cbn [fst snd length repeat run fold_left map].
      unfold iteration. cbn [buf conn sock].
      rewrite cutMessage_none by (now rewrite used_split).
      reflexivity.
Qed.

Lemma deliver_data (r : Reader) (u f d : bytes) (sk : list SockOp) :
  d <> [] ->
  exists f1,
    deliver (mkHandler (mkConn None false (Some r))
                       (mkDynBuf (u ++ f) (blen u)) AwaitRead sk)
            (EvData d)
    = iteration (mkHandler (mkConn None false None)
                           (mkDynBuf ((u ++ d) ++ f1) (blen (u ++ d)))
                           AtLoopTop (sk ++ [Pause])).
Proof.
  intros Hd. destruct (bufPush_spec u f d) as (f1 & Hpush & _). exists f1.
  unfold deliver, onData, resume_read, after_read.
  cbn [conn buf pc sock err ended reader]. rewrite Hpush.
  assert ((blen d =? 0) = false) as ->.
  { apply Z.eqb_neq. destruct d; [congruence|]. unfold blen. simpl. lia. }
  unfold run_top. cbn [pc]. rewrite blen_app, <- app_assoc. reflexivity.
Qed.

(** ** The handler always reaches a suspension point

    [iteration] is one pass through the loop body. The lemmas below show
    that one pass is all there is between two suspensions: from a
    well-formed buffer it ends at an [await], at the [break] or in a
    rejection, never back at the loop top, and [bufPush] never throws. *)

(** Splits [handler_inv] of an explicit state: the buffer part by
    assumption, the program-point parts by computation. *)
Ltac handler_inv_tac :=
  split; [cbn [buf]; assumption
         | repeat split; cbn; try discriminate; try assumption;
           try reflexivity].

Lemma wf_cases (b : DynBuf) :
  wf b ->
  cutMessage b = (None, b)
  \/ exists m b', cutMessage b = (Some m, b') /\ wf b'.
Proof.
  intros Hwf. destruct (in_dec Byte.byte_eq_dec nl (used b)) as [Hin|Hn].
  - right. destruct (first_occurrence _ _ Hin) as (pre & post & Hu & Hpre).
    rewrite (wf_split Hwf), Hu. rewrite cutMessage_some by assumption.
    do 2 eexists. split; [reflexivity | apply wf_mk].
  - left. now apply cutMessage_none.
Qed.

Lemma bufPush_wf (b : DynBuf) (d : bytes) :
  wf b -> exists b', bufPush b d = Some b' /\ wf b'.
Proof.
  intros Hwf. rewrite (wf_split Hwf).
  destruct (bufPush_spec (used b) (skipn (Z.to_nat (size b)) (data b)) d)
    as (f' & -> & _).
  eexists. split; [reflexivity|].
  rewrite <- blen_app, app_assoc. apply wf_mk.
Qed.

Lemma iteration_inv (h : Handler) :
  wf (buf h) -> reader (conn h) = None -> handler_inv (iteration h).
Proof.
  destruct h as [[e en r] b p sk]. cbn [buf conn reader].
  intros Hwf ->. unfold iteration. cbn [buf conn sock].
  destruct (wf_cases Hwf) as [-> | (m & b' & -> & Hwf')].
  - unfold soRead. cbn [err ended].
    destruct e as [e|]; [|destruct en].
    + handler_inv_tac.
    + unfold after_read. cbn [buf conn sock].
      destruct (bufPush_wf [] Hwf) as (b1 & -> & Hwf1).
      handler_inv_tac.
    + handler_inv_tac.
  - destruct (equals m quit_msg); unfold soWrite; cbn [err];
      destruct e as [e|];
      handler_inv_tac.
Qed.

Lemma after_read_inv (h : Handler) (d : bytes) :
  wf (buf h) -> reader (conn h) = None ->
  handler_inv (run_top (after_read h d)).
Proof.
  intros Hwf Hr. unfold after_read.
  destruct (bufPush_wf d Hwf) as (b1 & -> & Hwf1).
  destruct (blen d =? 0); unfold run_top; cbn [pc].
  - handler_inv_tac. rewrite Hr. discriminate.
  - apply iteration_inv; assumption.
Qed.

Lemma reader_cases (h : Handler) :
  handler_inv h ->
  (pc h = AwaitRead /\ reader (conn h) = Some HandlerRead)
  \/ (pc h <> AwaitRead /\ reader (conn h) = None).
Proof.
  intros (_ & _ & Hiff & _).
  destruct (reader (conn h)) as [[]|] eqn:Hr.
  - left. split; [now apply Hiff | reflexivity].
  - right. split; [|reflexivity]. intros Hp. apply Hiff in Hp. discriminate.
Qed.

Lemma stopped_inv (c : TCPConn) (b : DynBuf) (p : Pc) (sk : list SockOp) :
  wf b -> p <> AtLoopTop -> p <> AwaitRead -> reader c = None ->
  handler_inv (mkHandler c b p sk).
Proof.
  intros Hwf Htop Hrd Hr. unfold handler_inv. cbn [buf pc conn].
  split; [assumption|]. split; [assumption|]. split.
  - split; intros H; [contradiction | rewrite Hr in H; discriminate].
  - intros H. contradiction.
Qed.

Lemma deliver_inv (h : Handler) (ev : Event) :
  handler_inv h -> handler_inv (deliver h ev).
Proof.
  intros Hinv. pose proof Hinv as (Hwf & Htop & _ & _).
  destruct (reader_cases Hinv) as [[Hp Hr]|[Hp Hr]];
    destruct h as [c b p sk]; cbn [pc conn buf sock] in *;
    destruct ev as [d | | e | [e|]]; unfold deliver; cbn [conn buf pc sock].
  - unfold onData, resume_read. rewrite Hr, Hp. cbn [pc].
    now apply after_read_inv.
  - unfold onEnd, resume_read. rewrite Hr, Hp. cbn [pc].
    now apply after_read_inv.
  - unfold onError, resume_read. rewrite Hr, Hp. cbn [pc conn buf sock].
    apply stopped_inv; try assumption; try discriminate; reflexivity.
  - subst p. exact Hinv.
  - subst p. exact Hinv.
  - unfold onData, resume_read. rewrite Hr. cbn [pc].
    assert (Hs : handler_inv (mkHandler (mkConn (err c) (ended c) None) b p
                                        (sk ++ [Pause])))
      by (apply stopped_inv; try assumption; reflexivity).
    destruct p; try exact Hs; contradiction.
  - unfold onEnd, resume_read. rewrite Hr. cbn [pc].
    assert (Hs : handler_inv (mkHandler (mkConn (err c) true None) b p
                                        (sk ++ [])))
      by (apply stopped_inv; try assumption; reflexivity).
    destruct p; try exact Hs; contradiction.
  - unfold onError, resume_read. rewrite Hr. cbn [pc].
    assert (Hs : handler_inv (mkHandler (mkConn (Some e) (ended c) None) b p
                                        (sk ++ [])))
      by (apply stopped_inv; try assumption; reflexivity).
    destruct p; try exact Hs; contradiction.
  - cbn [write_callback].
    destruct p; try exact Hinv;
      apply stopped_inv; try assumption; discriminate.
  - cbn [write_callback].
    destruct p; try exact Hinv; apply iteration_inv; assumption.
Qed.

(** Every state the handler can be in, from its start and after any
    events, satisfies the invariant. *)
Lemma run_inv (evs : list Event) : handler_inv (run serveClient evs).
Proof.
  unfold run.
  assert (H0 : handler_inv serveClient).
  { apply iteration_inv; [unfold wf; cbn; lia | reflexivity]. }
  revert H0. generalize serveClient as h.
  induction evs as [|ev rest IH]; intros h Hh; cbn [fold_left];
    [assumption | apply IH, deliver_inv, Hh].
Qed.

(** * The properties of the specification *)

(** C1 (framing correctness). Whatever chunks are pushed into the empty
    buffer, none of the pushes fails, and with [k] the number of
    delimiters in their concatenation, [k + 1] successive [cutMessage]
    calls return the [k] complete messages of the concatenation, in
    arrival order, and then null. Each message is a delimiter-free body
    followed by one delimiter; the messages followed by what stays in
    the buffer are the concatenation, and what stays holds no delimiter. *)
Theorem framing_correct (chunks : list bytes) :
  let input := concat chunks in
  let k := count_occ Byte.byte_eq_dec input nl in
  let msgs := fst (lines input) in
  exists b b',
    pushAll empty_buf chunks = Some b
    /\ cuts (S k) b = (map Some msgs ++ [None], b')
    /\ length msgs = k
    /\ Forall is_line msgs
    /\ concat msgs ++ used b' = input
    /\ ~ In nl (used b').
Proof.
  intros input k msgs.
  destruct (pushAll_spec chunks [] []) as (f & Hpush).
  change (mkDynBuf ([] ++ []) (blen [])) with empty_buf in Hpush.
  cbn [app] in Hpush. fold input in Hpush.
  destruct (lines_sound input) as (Hlen & Hcat & Hall & Hrest).
  destruct (@cuts_lines (length input) input f (le_n _)) as (b' & Hc & Hu).
  exists (mkDynBuf (input ++ f) (blen input)), b'.
  fold msgs in Hlen, Hcat, Hall, Hc. unfold k. rewrite <- Hlen, Hu.
  repeat split; assumption.
Qed.

(** C2 (contract of [cutMessage] and [bufPop]). On a buffer with
    [0 <= size <= cap]: without a delimiter in the pending bytes the
    result is null and the buffer is the same; otherwise, with [idx] the
    index of the first delimiter, the result is the bytes [[0, idx+1)]
    and the buffer afterwards is [bufPop buf (idx+1)], called within its
    precondition: [size] is smaller by [idx+1], the bytes that were
    pending behind the message now start at offset 0, and nothing else
    of the storage has changed. *)
Theorem cutMessage_contract (b : DynBuf) :
  wf b ->
  (~ In nl (used b) -> cutMessage b = (None, b))
  /\ (forall pre post, used b = pre ++ nl :: post -> ~ In nl pre ->
      let idx := blen pre in
      indexOf (used b) nl = idx
      /\ 0 <= idx + 1 <= size b
      /\ cutMessage b = (Some (pre ++ [nl]), bufPop b (idx + 1))
      /\ pre ++ [nl] = firstn (Z.to_nat (idx + 1)) (data b)
      /\ size (bufPop b (idx + 1)) = size b - (idx + 1)
      /\ data (bufPop b (idx + 1))
         = post ++ skipn (Z.to_nat (size b - (idx + 1))) (data b)
      /\ used (bufPop b (idx + 1)) = post).
Proof.
  intros Hwf. split; [apply cutMessage_none|].
  intros pre post Hu Hn idx.
  destruct (@cutMessage_unfold b pre post Hu Hn) as [Hi Hcut].
  assert (Hsize : size b = blen (used b)).
  { rewrite (wf_split Hwf) at 1. reflexivity. }
  assert (Hrange : 0 <= idx + 1 <= size b).
  { rewrite Hsize, Hu, blen_app. unfold idx, blen. simpl length. lia. }
  assert (Hmsg : subarray (data b) 0 (idx + 1) = pre ++ [nl]).
  { rewrite (wf_split Hwf). simpl data. rewrite Hu.
    replace (idx + 1) with (blen (pre ++ [nl]))
      by (rewrite blen_app; reflexivity).
    replace ((pre ++ nl :: post) ++ skipn (Z.to_nat (size b)) (data b))
      with ((pre ++ [nl]) ++ post ++ skipn (Z.to_nat (size b)) (data b))
      by (rewrite <- !app_assoc; reflexivity).
    apply subarray_app_prefix. }
  destruct (bufPop_wf Hwf Hrange) as (Hd & _ & Hused).
  assert (Hskip : skipn (Z.to_nat (idx + 1)) (used b) = post).
  { rewrite Hu. unfold idx, blen.
    replace (Z.to_nat (Z.of_nat (length pre) + 1)) with (length (pre ++ [nl]))
      by (rewrite length_app; simpl; lia).
    replace (pre ++ nl :: post) with ((pre ++ [nl]) ++ post)
      by (rewrite <- app_assoc; reflexivity).
    rewrite skipn_app, skipn_all, Nat.sub_diag. reflexivity. }
  repeat split; try assumption; try lia.
  - fold idx in Hcut. rewrite Hcut, Hmsg. reflexivity.
  - rewrite <- Hmsg. apply subarray_prefix. unfold wf in Hwf. lia.
  - rewrite Hd, Hskip. reflexivity.
  - rewrite Hused. exact Hskip.
Qed.

Lemma cutMessage_contract_witness :
  wf buf_a_b
  /\ cutMessage buf_a_b = (Some [x61; nl], bufPop buf_a_b 2)
  /\ used (bufPop buf_a_b 2) = [x62].
Proof.
  assert (Hwf : wf buf_a_b) by (unfold wf; vm_compute; split; discriminate).
  split; [exact Hwf|].
  destruct (cutMessage_contract Hwf) as [_ H].
  destruct (H [x61] [x62]) as (_ & _ & Hc & _ & _ & _ & Hu).
  - reflexivity.
  - simpl. intros [H1|[]]. discriminate H1.
  - split; [exact Hc | exact Hu].
Defined.

(** C8 (idempotent drain). On a buffer whose pending bytes hold no
    delimiter, any number of [cutMessage] calls all return null and
    leave the buffer, storage and [size], as it was. *)
Theorem drain_idempotent (b : DynBuf) (n : nat) :
  ~ In nl (used b) -> cuts n b = (repeat None n, b).
Proof.
  intros Hn. induction n as [|n IH]; [reflexivity|].
  cbn [cuts repeat]. rewrite cutMessage_none by assumption.
  rewrite IH. reflexivity.
Qed.

Lemma drain_idempotent_witness :
  ~ In nl (used (mkDynBuf msg_a_b 1))
  /\ cuts 3 (mkDynBuf msg_a_b 1) = ([None; None; None], mkDynBuf msg_a_b 1).
Proof.
  assert (H : ~ In nl (used (mkDynBuf msg_a_b 1))).
  { simpl. intros [H1|[]]. discriminate H1. }
  split; [exact H | exact (drain_idempotent (mkDynBuf msg_a_b 1) 3 H)].
Defined.

(** C6, as the specification states it, fails before the first byte
    arrives: the buffer starts with no storage at all, and an empty
    chunk does not allocate, so the capacity is 0, which is not of the
    form [32 * 2^k]. *)
Lemma growth_rule_fails_on_empty :
  run_ops [Push []] empty_buf 0 = Some (empty_buf, 0)
  /\ blen (data empty_buf) = 0
  /\ ~ least_scaled (blen (data empty_buf)) 0.
Proof.
  repeat split. intros (k & Hk & _).
  pose proof (scaled_pos k). change (blen (data empty_buf)) with 0 in Hk. lia.
Qed.

(** C6 (buffer invariant and growth rule, amended). After any history of
    [bufPush] and in-range [bufPop] calls that starts from the empty
    buffer, with [peak] the largest [size] so far: [0 <= size <= cap];
    the capacity is 0 while [peak] is 0, and otherwise it is the
    smallest [32 * 2^k] that is [>= peak]. From such a state a further
    [bufPush] never fails, never shrinks the capacity, keeps it when the
    new length fits and enlarges it when it does not; an in-range
    [bufPop] keeps the capacity. *)
Theorem buffer_invariant (ops : list BufOp) (b : DynBuf) (peak : Z) :
  run_ops ops empty_buf 0 = Some (b, peak) ->
  0 <= size b <= blen (data b)
  /\ size b <= peak
  /\ (peak = 0 -> blen (data b) = 0)
  /\ (0 < peak -> least_scaled (blen (data b)) peak)
  /\ (forall d, exists b',
        bufPush b d = Some b'
        /\ size b' = size b + blen d
        /\ blen (data b) <= blen (data b')
        /\ (size b + blen d <= blen (data b) -> blen (data b') = blen (data b))
        /\ (blen (data b) < size b + blen d -> blen (data b) < blen (data b')))
  /\ (forall n, 0 <= n <= size b ->
        blen (data (bufPop b n)) = blen (data b)
        /\ size (bufPop b n) = size b - n).
Proof.
  intros Hrun.
  destruct (@run_ops_inv ops empty_buf 0 b peak buf_inv_empty (Z.le_refl 0) Hrun)
    as [Hinv Hp0].
  pose proof Hinv as (Hwf & Hsz & H0 & Hp).
  repeat split; try assumption; try apply Hwf.
  - intros d. destruct (buf_inv_push d Hinv) as (b' & Hpush & _ & Hs & Hcap).
    exists b'. rewrite Hcap.
    pose proof (blen_nonneg (data b)).
    destruct (@new_cap_ge (blen (data b)) (size b + blen d)) as [Hn Hc]; [lia|].
    repeat split; try assumption.
    + intros Hfit. unfold new_cap.
      destruct (Z.ltb_spec (blen (data b)) (size b + blen d)); [lia | reflexivity].
    + intros Hbig. lia.
  - destruct (@buf_inv_pop b peak n Hinv H) as [_ Hlen]. exact Hlen.
Qed.

Lemma buffer_invariant_witness :
  run_ops [Push msg_a_b; Pop 2; Push (alloc 40)] empty_buf 0
  = Some (mkDynBuf ([x62] ++ alloc 63) 41, 41)
  /\ least_scaled 64 41.
Proof.
  assert (H : run_ops [Push msg_a_b; Pop 2; Push (alloc 40)] empty_buf 0
              = Some (mkDynBuf ([x62] ++ alloc 63) 41, 41)) by reflexivity.
  split; [exact H|].
  destruct (buffer_invariant _ H) as (_ & _ & _ & Hl & _).
  apply Hl. reflexivity.
Defined.

(** C4 (error latch). Once the ['error'] callback has recorded an error,
    then after any further reads, writes and socket events an error is
    still recorded, and [soRead] and [soWrite] reject at once with the
    recorded error, without changing the connection and without calling
    the socket. The recorded error is the one of that event unless a
    later ['error'] event replaced it. *)
Theorem error_latch (c0 : TCPConn) (e : Error) (steps : list ConnStep) :
  let c := conn_steps (conn_step c0 (GotError e)) steps in
  exists e',
    err c = Some e'
    /\ soRead c = (c, Rejected e', [])
    /\ (forall d, soWrite c d = (c, Rejected e', []))
    /\ (existsb is_error_event steps = false -> e' = e).
Proof.
  intros c.
  destruct (@conn_steps_latched steps (conn_step c0 (GotError e)) e)
    as (e' & He & Hsame).
  { rewrite conn_step_err. reflexivity. }
  exists e'. fold c in He. repeat split; try assumption.
  - now apply soRead_rejects.
  - intros d. now apply soWrite_rejects.
Qed.

Lemma error_latch_witness :
  let c := conn_steps (conn_step soInit (GotError (TransportError 104)))
                      [DoRead; GotData msg_x; GotEnd; DoWrite msg_y] in
  soRead c = (c, Rejected (TransportError 104), [])
  /\ soWrite c msg_x = (c, Rejected (TransportError 104), []).
Proof.
  intros c.
  destruct (error_latch soInit (TransportError 104)
              [DoRead; GotData msg_x; GotEnd; DoWrite msg_y])
    as (e' & _ & Hr & Hw & Hsame).
  fold c in Hr, Hw. rewrite <- (Hsame eq_refl).
  split; [exact Hr | exact (Hw msg_x)].
Defined.

(** C5 (EOF contract). Once the ['end'] callback has run, then after any
    further reads, writes and socket events the stream is still marked
    ended, and [soRead] settles at once without registering a waiter or
    calling the socket: with the empty byte sequence when no error is
    recorded, and with the recorded error otherwise. The ['end']
    callback itself resolves a pending read with the empty sequence. *)
Theorem eof_contract (c0 : TCPConn) (steps : list ConnStep) :
  let c := conn_steps (conn_step c0 GotEnd) steps in
  ended c = true
  /\ match err c with
     | None => soRead c = (c, Resolved [], [])
     | Some e => soRead c = (c, Rejected e, [])
     end
  /\ match reader c0 with
     | Some _ => snd (fst (onEnd c0)) = Some (Resolved [])
     | None => snd (fst (onEnd c0)) = None
     end.
Proof.
  intros c.
  assert (Hend : ended c = true).
  { apply conn_steps_ended. unfold conn_step, onEnd.
    destruct (reader c0); reflexivity. }
  repeat split; [assumption | |].
  - unfold soRead. rewrite Hend. destruct (err c); reflexivity.
  - unfold onEnd. destruct (reader c0); reflexivity.
Qed.

(** C10 ([soWrite] ignores the end-of-stream flag). With no recorded
    error, whatever [ended] is, and so when it is set, [soWrite] does
    not settle by itself: it hands the data to [socket.write], and the
    promise settles as the completion callback says, resolved without an
    error and rejected with the error otherwise. *)
Theorem write_after_end (c : TCPConn) (d : bytes) :
  err c = None ->
  soWrite c d = (c, Pending, [Write d])
  /\ write_callback None = Resolved tt
  /\ (forall e, write_callback (Some e) = Rejected e).
Proof.
  intros He. unfold soWrite. rewrite He. repeat split.
Qed.

Lemma write_after_end_witness :
  let c := conn_step soInit GotEnd in
  ended c = true /\ err c = None
  /\ soWrite c msg_x = (c, Pending, [Write msg_x]).
Proof.
  intros c. split; [reflexivity|]. split; [reflexivity|].
  exact (proj1 (write_after_end c msg_x eq_refl)).
Defined.

(** C7 (echo, and draining before the next read). The handler waits for
    a read, with no recorded error and the stream open, when a non-empty
    chunk arrives. If none of the complete messages then in the buffer
    is [quit\n], the handler writes [Echo: ] followed by the unchanged
    message for each of them, in order, one per acknowledged write, and
    asks the socket for more input only after the last of them; the
    buffer keeps the unfinished rest. *)
Theorem echo_replies (h : Handler) (d : bytes) :
  pc h = AwaitRead -> reader (conn h) = Some HandlerRead ->
  err (conn h) = None -> ended (conn h) = false ->
  wf (buf h) -> d <> [] ->
  let ms := fst (lines (used (buf h) ++ d)) in
  Forall (fun m => m <> quit_msg) ms ->
  let h' := run h (EvData d :: repeat ack (length ms)) in
  pc h' = AwaitRead
  /\ sock h'
     = sock h ++ [Pause] ++ map (fun m => Write (echo_prefix ++ m)) ms
              ++ [Resume]
  /\ Forall is_line ms
  /\ concat ms ++ used (buf h') = used (buf h) ++ d
  /\ ~ In nl (used (buf h')).
Proof.
  intros Hpc Hr He Hen Hwf Hd ms Hq h'.
  destruct h as [[e en r] b p sk].
  cbn [pc conn buf sock err ended reader] in Hpc, Hr, He, Hen, Hwf, ms, Hq, h'.
  cbn [pc conn buf sock err ended reader]. subst p r e en.
  remember (used b) as u eqn:Hu.
  pose proof (wf_split Hwf) as Hb. rewrite <- Hu in Hb.
  remember (skipn (Z.to_nat (size b)) (data b)) as f eqn:Hf. clear Hf.
  subst b. clear Hu Hwf.
  destruct (@deliver_data HandlerRead u f d sk Hd) as (f1 & Hstep).
  destruct (@drain_echo (length (u ++ d)) (u ++ d) f1 None (sk ++ [Pause])
              (le_n _) Hq) as (f' & Hrun).
  assert (Hh : h' = mkHandler (mkConn None false (Some HandlerRead))
                 (mkDynBuf (snd (lines (u ++ d)) ++ f')
                           (blen (snd (lines (u ++ d)))))
                 AwaitRead
                 ((sk ++ [Pause])
                    ++ map (fun m => Write (echo_prefix ++ m)) ms ++ [Resume])).
  { unfold h', run. cbn [fold_left]. rewrite Hstep. exact Hrun. }
  rewrite Hh. cbn [pc sock buf]. rewrite used_split.
  destruct (lines_sound (u ++ d)) as (_ & Hcat & Hall & Hrest).
  repeat split; try assumption.
  rewrite <- app_assoc. reflexivity.
Qed.

Lemma echo_replies_witness :
  sock (run serveClient [EvData msg_xy; ack; ack])
  = [Resume; Pause; Write (echo_prefix ++ msg_x); Write (echo_prefix ++ msg_y);
     Resume]
  /\ pc (run serveClient [EvData msg_xy; ack; ack]) = AwaitRead.
Proof.
  assert (Hwf : wf (buf serveClient)) by (vm_compute; split; discriminate).
  assert (Hd : msg_xy <> []) by discriminate.
  assert (Hq : Forall (fun m => m <> quit_msg)
                 (fst (lines (used (buf serveClient) ++ msg_xy))))
    by (repeat constructor; discriminate).
  destruct (@echo_replies serveClient msg_xy eq_refl eq_refl eq_refl eq_refl
              Hwf Hd Hq) as (Hpc & Hsock & _).
  split; [exact Hsock | exact Hpc].
Defined.

(** C3 ([quit\n]), the code at the failing input. After [quit\n] the
    handler writes [Bye\n] and destroys the socket, but the loop has no
    exit there: it frames again and, with nothing buffered, asks the
    destroyed socket for more input ([Resume], suspended in [soRead]);
    with [x\n] buffered behind [quit\n] it writes [Echo: x\n] to the
    destroyed socket. *)
Theorem quit_keeps_handler_running :
  let h1 := run serveClient [EvData quit_msg; ack] in
  let h2 := run serveClient [EvData (quit_msg ++ msg_x); ack] in
  sock h1 = [Resume; Pause; Write bye_msg; Destroy; Resume]
  /\ pc h1 = AwaitRead
  /\ reader (conn h1) = Some HandlerRead
  /\ sock h2 = [Resume; Pause; Write bye_msg; Destroy;
                Write (echo_prefix ++ msg_x)]
  /\ pc h2 = AwaitWriteEcho.
Proof. repeat split. Qed.

(** * Further properties of the code *)

(** ** The dynamic buffer on its own *)

Lemma copy_at_zero (s t : bytes) : exists r, copy s t 0 = Some r.
Proof.
  unfold copy. change (0 <? 0) with false. cbn iota.
  destruct (blen t <=? 0); eexists; reflexivity.
Qed.

Lemma copy_negative (s t : bytes) (k : Z) : k < 0 -> copy s t k = None.
Proof.
  intros Hk. unfold copy. destruct (Z.ltb_spec k 0); [reflexivity | lia].
Qed.

Lemma used_length (b : DynBuf) : wf b -> length (used b) = Z.to_nat (size b).
Proof.
  intros Hwf. pose proof (wf_split Hwf) as Hb.
  assert (Hs : size b = blen (used b)) by (rewrite Hb at 1; reflexivity).
  unfold blen in Hs. lia.
Qed.

Lemma bufPush_used (b : DynBuf) (d : bytes) :
  wf b ->
  exists b',
    bufPush b d = Some b' /\ wf b' /\ used b' = used b ++ d
    /\ size b' = size b + blen d.
Proof.
  intros Hwf. pose proof (wf_split Hwf) as Hb.
  remember (used b) as u eqn:Hu.
  remember (skipn (Z.to_nat (size b)) (data b)) as f eqn:Hf.
  clear Hu Hf Hwf. subst b.
  destruct (bufPush_spec u f d) as (f' & -> & _).
  eexists. split; [reflexivity|].
  rewrite <- blen_app, app_assoc.
  split; [apply wf_mk|]. split; [apply used_split|].
  cbn [size]. apply blen_app.
Qed.

(** X1. [bufPush] on a well-formed buffer never throws: it appends the
    chunk behind the pending bytes, which stay as they were whether or
    not the storage had to grow; the result is well formed and its
    storage is not smaller than before. *)
Theorem bufPush_appends (b : DynBuf) (d : bytes) :
  wf b ->
  exists b',
    bufPush b d = Some b'
    /\ wf b'
    /\ used b' = used b ++ d
    /\ size b' = size b + blen d
    /\ blen (data b) <= blen (data b').
Proof.
  intros Hwf. pose proof (wf_split Hwf) as Hb.
  remember (used b) as u eqn:Hu.
  remember (skipn (Z.to_nat (size b)) (data b)) as f eqn:Hf.
  clear Hu Hf Hwf. subst b.
  destruct (bufPush_spec u f d) as (f' & -> & Hcap).
  eexists. split; [reflexivity|]. cbn [data size].
  destruct (@new_cap_ge (blen (u ++ f)) (blen u + blen d)) as [_ Hge];
    [apply blen_nonneg|].
  rewrite Hcap. split; [|split; [|split]]; try assumption.
  - rewrite <- blen_app, app_assoc. apply wf_mk.
  - rewrite <- blen_app, app_assoc. apply used_split.
  - reflexivity.
Qed.

Lemma bufPush_appends_witness :
  wf buf_a_b
  /\ exists b', bufPush buf_a_b msg_xy = Some b'
                /\ used b' = msg_a_b ++ msg_xy.
Proof.
  assert (Hwf : wf buf_a_b) by (unfold wf; vm_compute; split; discriminate).
  split; [exact Hwf|].
  destruct (bufPush_appends msg_xy Hwf) as (b' & Hp & _ & Hu & _).
  exists b'. split; [exact Hp | exact Hu].
Defined.

(** X2. Once [size] is negative, [bufPush] throws the [RangeError] of
    [Buffer.copy], whatever the chunk and whether or not the storage
    would have grown. *)
Theorem bufPush_negative_size_throws (b : DynBuf) (d : bytes) :
  size b < 0 -> bufPush b d = None.
Proof.
  intros Hneg. unfold bufPush.
  destruct (blen (data b) <? size b + blen d).
  - destruct (copy_at_zero (data b)
                (alloc (grow_cap (Z.to_nat (size b + blen d))
                                 (Z.max (blen (data b)) 32)
                                 (size b + blen d)))) as (r & ->).
    now rewrite copy_negative.
  - now rewrite copy_negative.
Qed.

Lemma bufPush_negative_size_throws_witness :
  size (bufPop buf_a_b 5) < 0 /\ bufPush (bufPop buf_a_b 5) msg_x = None.
Proof.
  assert (H : size (bufPop buf_a_b 5) < 0) by reflexivity.
  split; [exact H | exact (bufPush_negative_size_throws _ msg_x H)].
Defined.

(** X3. [bufPop] with more bytes than are pending does not touch the
    storage and leaves a negative [size]. *)
Theorem bufPop_beyond_size (b : DynBuf) (n : Z) :
  wf b -> size b < n ->
  bufPop b n = mkDynBuf (data b) (size b - n) /\ size (bufPop b n) < 0.
Proof.
  intros [Hlo Hhi] Hn. unfold bufPop, copyWithin.
  assert (Hcount :
            (0 <? Z.min (rel_index (blen (data b)) (size b)
                         - rel_index (blen (data b)) n)
                        (blen (data b) - rel_index (blen (data b)) 0)) = false).
  { apply Z.ltb_ge. unfold rel_index.
    destruct (Z.ltb_spec (size b) 0), (Z.ltb_spec n 0); lia. }
  rewrite Hcount. cbn [size]. split; [reflexivity | lia].
Qed.

Lemma bufPop_beyond_size_witness :
  wf buf_a_b /\ 3 < 5 /\ bufPop buf_a_b 5 = mkDynBuf (data buf_a_b) (-2).
Proof.
  assert (Hwf : wf buf_a_b) by (unfold wf; vm_compute; split; discriminate).
  assert (Hn : size buf_a_b < 5) by reflexivity.
  split; [exact Hwf|]. split; [reflexivity|].
  exact (proj1 (@bufPop_beyond_size buf_a_b 5 Hwf Hn)).
Defined.

(** X4. [bufPop] within its precondition removes exactly the first [n]
    pending bytes: what is pending afterwards is what was pending behind
    them, the buffer stays well formed and its capacity is the same. *)
Theorem bufPop_removes_prefix (b : DynBuf) (n : Z) :
  wf b -> 0 <= n <= size b ->
  wf (bufPop b n)
  /\ used (bufPop b n) = skipn (Z.to_nat n) (used b)
  /\ blen (data (bufPop b n)) = blen (data b).
Proof.
  intros Hwf Hn. destruct (bufPop_wf Hwf Hn) as (_ & Hlen & Hu).
  repeat split; try assumption.
  - cbn [bufPop size]. lia.
  - rewrite Hlen. cbn [bufPop size]. unfold wf in Hwf. lia.
Qed.

Lemma bufPop_removes_prefix_witness :
  wf buf_a_b /\ used (bufPop buf_a_b 2) = [x62].
Proof.
  assert (Hwf : wf buf_a_b) by (unfold wf; vm_compute; split; discriminate).
  assert (Hn : 0 <= 2 <= size buf_a_b) by (vm_compute; split; discriminate).
  split; [exact Hwf|].
  exact (proj1 (proj2 (@bufPop_removes_prefix buf_a_b 2 Hwf Hn))).
Defined.

(** X5. First in, first out: after a chunk is pushed, popping as many
    bytes as were pending before leaves exactly that chunk pending, and
    popping everything leaves nothing. *)
Theorem push_then_pop (b : DynBuf) (d : bytes) :
  wf b ->
  exists b',
    bufPush b d = Some b'
    /\ used (bufPop b' (size b)) = d
    /\ used (bufPop b' (size b')) = [].
Proof.
  intros Hwf. destruct (bufPush_used d Hwf) as (b' & Hp & Hwf' & Hu & Hs).
  exists b'. split; [assumption|].
  pose proof (blen_nonneg d). pose proof (used_length Hwf) as Hl.
  assert (Hr : 0 <= size b <= size b') by (unfold wf in Hwf; lia).
  assert (Hr' : 0 <= size b' <= size b') by (unfold wf in Hwf'; lia).
  destruct (bufPop_wf Hwf' Hr) as (_ & _ & ->).
  destruct (bufPop_wf Hwf' Hr') as (_ & _ & ->).
  rewrite Hu. split.
  - rewrite <- Hl, skipn_app, skipn_all, Nat.sub_diag. reflexivity.
  - apply skipn_all2. rewrite <- Hu, (used_length Hwf'). lia.
Qed.

Lemma push_then_pop_witness :
  wf buf_a_b
  /\ exists b', bufPush buf_a_b msg_xy = Some b'
                /\ used (bufPop b' (size buf_a_b)) = msg_xy.
Proof.
  assert (Hwf : wf buf_a_b) by (unfold wf; vm_compute; split; discriminate).
  split; [exact Hwf|].
  destruct (push_then_pop msg_xy Hwf) as (b' & Hp & Hu & _).
  exists b'. split; [exact Hp | exact Hu].
Defined.

(** X6. Two in-range [bufPop] calls in a row leave the same pending
    bytes and the same [size] as one call with the sum. *)
Theorem bufPop_twice (b : DynBuf) (n m : Z) :
  wf b -> 0 <= n -> 0 <= m -> n + m <= size b ->
  used (bufPop (bufPop b n) m) = used (bufPop b (n + m))
  /\ size (bufPop (bufPop b n) m) = size (bufPop b (n + m)).
Proof.
  intros Hwf Hn Hm Hsum.
  assert (Hr1 : 0 <= n <= size b) by lia.
  assert (Hr2 : 0 <= n + m <= size b) by lia.
  destruct (bufPop_wf Hwf Hr1) as (_ & Hlen1 & Hu1).
  assert (Hwf1 : wf (bufPop b n)).
  { unfold wf. rewrite Hlen1. cbn [bufPop size]. unfold wf in Hwf. lia. }
  assert (Hr3 : 0 <= m <= size (bufPop b n)) by (cbn [bufPop size]; lia).
  destruct (bufPop_wf Hwf1 Hr3) as (_ & _ & ->).
  destruct (bufPop_wf Hwf Hr2) as (_ & _ & ->).
  rewrite Hu1, skipn_skipn. split.
  - f_equal. lia.
  - cbn [bufPop size]. lia.
Qed.

Lemma bufPop_twice_witness :
  wf buf_a_b
  /\ used (bufPop (bufPop buf_a_b 1) 1) = used (bufPop buf_a_b 2).
Proof.
  assert (Hwf : wf buf_a_b) by (unfold wf; vm_compute; split; discriminate).
  split; [exact Hwf|].
  refine (proj1 (@bufPop_twice buf_a_b 1 1 Hwf _ _ _));
    vm_compute; discriminate.
Defined.

(** X21. Pushing an empty chunk into a well-formed buffer changes
    nothing: no growth, the same storage and the same [size]. (This is
    what the handler does with the empty read at end of stream.) *)
Theorem bufPush_empty_chunk (b : DynBuf) :
  wf b -> bufPush b [] = Some b.
Proof.
  intros [Hlo Hhi]. destruct b as [dat sz]. cbn [data size] in *.
  unfold bufPush. cbn [data size blen length Z.of_nat].
  rewrite Z.add_0_r.
  destruct (Z.ltb_spec (blen dat) sz) as [Hlt|_]; [lia|].
  unfold copy. destruct (Z.ltb_spec sz 0) as [Hneg|_]; [lia|].
  destruct (Z.leb_spec (blen dat) sz) as [_|Hgt]; [reflexivity|].
  cbn [blen length Z.of_nat]. rewrite Z.min_l by lia.
  cbn [Z.to_nat firstn app]. rewrite Z.add_0_r, firstn_skipn. reflexivity.
Qed.

Lemma bufPush_empty_chunk_witness :
  wf buf_a_b /\ bufPush buf_a_b [] = Some buf_a_b.
Proof.
  assert (Hwf : wf buf_a_b) by (unfold wf; vm_compute; split; discriminate).
  split; [exact Hwf | exact (bufPush_empty_chunk Hwf)].
Defined.

(** X7. The storage is never larger than 32 bytes or twice the largest
    number of bytes that were pending at once, after any history of
    pushes and in-range pops from the empty buffer. *)
Theorem capacity_bounded (ops : list BufOp) (b : DynBuf) (peak : Z) :
  run_ops ops empty_buf 0 = Some (b, peak) ->
  blen (data b) <= 32 \/ blen (data b) < 2 * peak.
Proof.
  intros Hrun.
  destruct (@run_ops_inv ops empty_buf 0 b peak buf_inv_empty (Z.le_refl 0) Hrun)
    as [(_ & _ & H0 & Hp) Hp0].
  destruct (Z.eq_dec peak 0) as [Hz|Hnz].
  - left. rewrite (H0 Hz). lia.
  - destruct Hp as (k & -> & Hle & Hmin); [lia|].
    destruct k as [|k]; [left; reflexivity | right].
    rewrite scaled_S.
    destruct (Z.lt_ge_cases (scaled k) peak) as [Hlt|Hge]; [lia|].
    pose proof (Hmin k Hge) as Hc. rewrite scaled_S in Hc.
    pose proof (scaled_pos k). lia.
Qed.

Lemma capacity_bounded_witness :
  run_ops [Push (alloc 33); Pop 33] empty_buf 0
  = Some (mkDynBuf (alloc 64) 0, 33)
  /\ (64 <= 32 \/ 64 < 2 * 33).
Proof.
  assert (H : run_ops [Push (alloc 33); Pop 33] empty_buf 0
              = Some (mkDynBuf (alloc 64) 0, 33)) by reflexivity.
  split; [exact H | exact (capacity_bounded _ H)].
Defined.

Lemma first_split_unique (x : byte) (p1 : bytes) :
  forall p2 q1 q2,
  p1 ++ x :: q1 = p2 ++ x :: q2 -> ~ In x p1 -> ~ In x p2 ->
  p1 = p2 /\ q1 = q2.
Proof.
  induction p1 as [|y t IH]; intros [|z t2] q1 q2 Heq H1 H2; simpl in Heq.
  - inversion Heq. split; reflexivity.
  - inversion Heq; subst. exfalso. apply H2. now left.
  - inversion Heq; subst. exfalso. apply H1. now left.
  - inversion Heq; subst.
    destruct (IH t2 q1 q2) as [-> ->]; try assumption.
    + intros H. apply H1. now right.
    + intros H. apply H2. now right.
    + split; reflexivity.
Qed.

(** On a well-formed buffer [cutMessage] either finds no delimiter in
    the pending bytes and changes nothing, or splits them at the first
    delimiter. *)
Lemma cut_cases (b : DynBuf) :
  wf b ->
  (~ In nl (used b) /\ cutMessage b = (None, b))
  \/ exists pre post b',
       used b = pre ++ nl :: post /\ ~ In nl pre
       /\ cutMessage b = (Some (pre ++ [nl]), b')
       /\ wf b' /\ used b' = post.
Proof.
  intros Hwf. destruct (in_dec Byte.byte_eq_dec nl (used b)) as [Hin|Hn].
  - right. destruct (first_occurrence _ _ Hin) as (pre & post & Hu & Hpre).
    pose proof (wf_split Hwf) as Hb. rewrite Hu in Hb.
    set (f := skipn (Z.to_nat (size b)) (data b)) in Hb.
    exists pre, post,
      (mkDynBuf (post ++ skipn (length post) ((pre ++ nl :: post) ++ f))
                (blen post)).
    repeat split; try assumption; try apply wf_mk; try apply used_split.
    rewrite <- (@cutMessage_some pre post f Hpre). f_equal. exact Hb.
  - left. split; [assumption | now apply cutMessage_none].
Qed.

(** X8. Framing looks at the pending bytes only: two well-formed buffers
    with the same pending bytes, whatever their capacity and whatever is
    stored beyond [size], give the same message (or both none) and have
    the same bytes pending afterwards. *)
Theorem cutMessage_pending_only (b1 b2 : DynBuf) :
  wf b1 -> wf b2 -> used b1 = used b2 ->
  fst (cutMessage b1) = fst (cutMessage b2)
  /\ used (snd (cutMessage b1)) = used (snd (cutMessage b2)).
Proof.
  intros Hwf1 Hwf2 Hu.
  destruct (cut_cases Hwf1)
    as [[Hn1 ->] | (p1 & q1 & c1 & Hu1 & Hp1 & -> & _ & Hc1)];
  destruct (cut_cases Hwf2)
    as [[Hn2 ->] | (p2 & q2 & c2 & Hu2 & Hp2 & -> & _ & Hc2)];
    cbn [fst snd].
  - split; [reflexivity | assumption].
  - exfalso. apply Hn1. rewrite Hu, Hu2. apply in_elt.
  - exfalso. apply Hn2. rewrite <- Hu, Hu1. apply in_elt.
  - rewrite Hu1, Hu2 in Hu.
    destruct (@first_split_unique nl p1 p2 q1 q2 Hu Hp1 Hp2) as [-> ->].
    split; [reflexivity | congruence].
Qed.

Lemma cutMessage_pending_only_witness :
  used buf_a_b = used (mkDynBuf (msg_a_b ++ msg_xy) 3)
  /\ fst (cutMessage buf_a_b) = fst (cutMessage (mkDynBuf (msg_a_b ++ msg_xy) 3)).
Proof.
  assert (Hwf1 : wf buf_a_b) by (unfold wf; vm_compute; split; discriminate).
  assert (Hwf2 : wf (mkDynBuf (msg_a_b ++ msg_xy) 3))
    by (unfold wf; vm_compute; split; discriminate).
  assert (Hu : used buf_a_b = used (mkDynBuf (msg_a_b ++ msg_xy) 3))
    by reflexivity.
  split; [exact Hu | exact (proj1 (cutMessage_pending_only Hwf1 Hwf2 Hu))].
Defined.

(** ** The handler over whole event sequences *)

Lemma writes_app (a b : list SockOp) : writes (a ++ b) = writes a ++ writes b.
Proof.
  induction a as [|o t IH]; [reflexivity|].
  destruct o; simpl; rewrite IH; reflexivity.
Qed.

Lemma log_ok_quiet (sk ops : list SockOp) :
  log_ok sk -> writes ops = [] -> ~ In Destroy ops -> log_ok (sk ++ ops).
Proof.
  intros [Hw Hd] Hq Hn. split.
  - rewrite writes_app, Hq, app_nil_r. exact Hw.
  - intros Hin. apply in_or_app. left. apply Hd.
    apply in_app_or in Hin. destruct Hin; [assumption | contradiction].
Qed.

Lemma log_ok_nil (sk : list SockOp) : log_ok sk -> log_ok (sk ++ []).
Proof. intros H. apply log_ok_quiet; [assumption | reflexivity | intros []]. Qed.

Lemma log_ok_write (sk : list SockOp) (d : bytes) :
  log_ok sk -> is_reply d -> log_ok (sk ++ [Write d]).
Proof.
  intros [Hw Hd] Hr. split.
  - rewrite writes_app. apply Forall_app. split; [assumption|].
    cbn [writes]. constructor; [exact Hr | constructor].
  - intros Hin. apply in_or_app. left. apply Hd.
    apply in_app_or in Hin. destruct Hin as [|[H|[]]];
      [assumption | discriminate H].
Qed.

Lemma log_ok_destroy (sk : list SockOp) :
  log_ok sk -> In (Write bye_msg) sk -> log_ok (sk ++ [Destroy]).
Proof.
  intros [Hw Hd] Hb. split.
  - rewrite writes_app, app_nil_r. exact Hw.
  - intros _. apply in_or_app. now left.
Qed.

Lemma mk_sock_inv (c : TCPConn) (b : DynBuf) (p : Pc) (sk : list SockOp) :
  log_ok sk ->
  (p = AwaitRead -> ~ In nl (used b)) ->
  (p = AwaitWriteBye -> In (Write bye_msg) sk) ->
  sock_inv (mkHandler c b p sk).
Proof.
  intros H1 H2 H3. unfold sock_inv. cbn [sock pc buf].
  split; [assumption | split; assumption].
Qed.

Lemma iteration_sock (h : Handler) :
  wf (buf h) -> log_ok (sock h) -> sock_inv (iteration h).
Proof.
  destruct h as [[e en r] b p sk]. cbn [buf sock]. intros Hwf Hlog.
  unfold iteration. cbn [buf conn sock].
  destruct (cut_cases Hwf)
    as [[Hn ->] | (pre & post & b' & Hu & Hpre & -> & Hwf' & Hpost)].
  - unfold soRead. cbn [err ended].
    destruct e as [e|]; [|destruct en].
    + apply mk_sock_inv; [now apply log_ok_nil | discriminate | discriminate].
    + unfold after_read. cbn [buf conn sock].
      destruct (bufPush_used [] Hwf) as (b1 & -> & _). cbn [blen length Z.of_nat Z.eqb].
      apply mk_sock_inv; [now apply log_ok_nil | discriminate | discriminate].
    + apply mk_sock_inv; [|intros _; assumption | discriminate].
      apply log_ok_quiet; [assumption | reflexivity |].
      intros [H|[]]. discriminate H.
  - destruct (equals (pre ++ [nl]) quit_msg); unfold soWrite; cbn [err];
      destruct e as [e|]; apply mk_sock_inv; try discriminate;
      try (now apply log_ok_nil).
    + apply log_ok_write; [assumption | now left].
    + intros _. apply in_or_app. right. now left.
    + apply log_ok_write; [assumption|]. right.
      exists (pre ++ [nl]). split; [|reflexivity]. now exists pre.
Qed.

Lemma after_read_sock (h : Handler) (d : bytes) :
  wf (buf h) -> log_ok (sock h) -> sock_inv (run_top (after_read h d)).
Proof.
  intros Hwf Hlog. unfold after_read.
  destruct (bufPush_used d Hwf) as (b1 & -> & Hwf1 & _).
  destruct (blen d =? 0); unfold run_top; cbn [pc].
  - apply mk_sock_inv; [assumption | discriminate | discriminate].
  - apply iteration_sock; assumption.
Qed.

Lemma quiet_sock (c : TCPConn) (b : DynBuf) (p : Pc) (sk ops : list SockOp) :
  log_ok sk -> writes ops = [] -> ~ In Destroy ops ->
  p <> AwaitRead -> (p = AwaitWriteBye -> In (Write bye_msg) sk) ->
  sock_inv (mkHandler c b p (sk ++ ops)).
Proof.
  intros Hlog Hq Hn Hp Hb. apply mk_sock_inv.
  - now apply log_ok_quiet.
  - intros H. contradiction.
  - intros H. apply in_or_app. left. now apply Hb.
Qed.

Lemma deliver_sock (h : Handler) (ev : Event) :
  handler_inv h -> sock_inv h -> sock_inv (deliver h ev).
Proof.
  intros Hinv Hs. pose proof Hinv as (Hwf & Htop & _ & _).
  pose proof Hs as (Hlog & Hnl & Hbye).
  destruct (reader_cases Hinv) as [[Hp Hr]|[Hp Hr]];
    destruct h as [c b p sk]; cbn [pc conn buf sock] in *;
    destruct ev as [d | | e | [e|]]; unfold deliver; cbn [conn buf pc sock].
  - unfold onData, resume_read. rewrite Hr, Hp. cbn [pc].
    apply after_read_sock; cbn [buf sock]; [assumption|].
    apply log_ok_quiet; [assumption | reflexivity |].
    intros [H|[]]. discriminate H.
  - unfold onEnd, resume_read. rewrite Hr, Hp. cbn [pc].
    apply after_read_sock; cbn [buf sock]; [assumption | now apply log_ok_nil].
  - unfold onError, resume_read. rewrite Hr, Hp. cbn [pc conn buf sock].
    apply quiet_sock; try assumption; try reflexivity; try discriminate.
    intros [].
  - subst p. exact Hs.
  - subst p. exact Hs.
  - unfold onData, resume_read. rewrite Hr. cbn [pc].
    assert (Hq : sock_inv (mkHandler (mkConn (err c) (ended c) None) b p
                                     (sk ++ [Pause]))).
    { apply quiet_sock; try assumption; try reflexivity.
      intros [H|[]]. discriminate H. }
    destruct p; try exact Hq; contradiction.
  - unfold onEnd, resume_read. rewrite Hr. cbn [pc].
    assert (Hq : sock_inv (mkHandler (mkConn (err c) true None) b p
                                     (sk ++ []))).
    { apply quiet_sock; try assumption; try reflexivity. intros []. }
    destruct p; try exact Hq; contradiction.
  - unfold onError, resume_read. rewrite Hr. cbn [pc].
    assert (Hq : sock_inv (mkHandler (mkConn (Some e) (ended c) None) b p
                                     (sk ++ []))).
    { apply quiet_sock; try assumption; try reflexivity. intros []. }
    destruct p; try exact Hq; contradiction.
  - cbn [write_callback].
    destruct p; try exact Hs;
      (rewrite <- (app_nil_r sk); apply quiet_sock;
       try assumption; try reflexivity; try discriminate; intros []).
  - cbn [write_callback].
    destruct p; try exact Hs; apply iteration_sock; cbn [buf sock];
      try assumption.
    apply log_ok_destroy; [assumption | now apply Hbye].
Qed.

Lemma run_sock_inv (evs : list Event) :
  handler_inv (run serveClient evs) /\ sock_inv (run serveClient evs).
Proof.
  unfold run.
  assert (H0 : handler_inv serveClient /\ sock_inv serveClient).
  { split.
    - apply iteration_inv; [unfold wf; cbn; lia | reflexivity].
    - apply iteration_sock; [unfold wf; cbn; lia|].
      split; [constructor | intros []]. }
  revert H0. generalize serveClient as h.
  induction evs as [|ev rest IH]; intros h [Hi Hs]; cbn [fold_left].
  - split; assumption.
  - apply IH. split; [now apply deliver_inv | now apply deliver_sock].
Qed.

(** A [destroy] in a log that was extended by calls other than
    [destroy] stands in the part that was there before. *)
Lemma split_before_tail (sk ops a b : list SockOp) :
  sk ++ ops = a ++ Destroy :: b -> ~ In Destroy ops ->
  exists b', sk = a ++ Destroy :: b'.
Proof.
  intros Heq Hn. apply app_eq_app in Heq.
  destruct Heq as (l & [[H1 H2] | [H1 H2]]).
  - destruct l as [|x l'].
    + exfalso. apply Hn. cbn in H2. rewrite <- H2. now left.
    + cbn in H2. inversion H2; subst. now exists l'.
  - exfalso. apply Hn. rewrite H2. apply in_elt.
Qed.

Lemma destroy_after_bye_quiet (sk ops : list SockOp) :
  destroy_after_bye sk -> ~ In Destroy ops -> destroy_after_bye (sk ++ ops).
Proof.
  intros Hsk Hn a b Heq.
  destruct (split_before_tail _ _ _ _ Heq Hn) as (b' & Hb). now apply (Hsk a b').
Qed.

Lemma destroy_after_bye_nil (sk : list SockOp) :
  destroy_after_bye sk -> destroy_after_bye (sk ++ []).
Proof. intros H. apply destroy_after_bye_quiet; [assumption | intros []]. Qed.

Lemma destroy_after_bye_destroy (sk : list SockOp) :
  destroy_after_bye sk -> (exists w, writes sk = w ++ [bye_msg]) ->
  destroy_after_bye (sk ++ [Destroy]).
Proof.
  intros Hsk Hbye a b Heq. apply app_eq_app in Heq.
  destruct Heq as (l & [[H1 H2] | [H1 H2]]).
  - destruct l as [|x l'].
    + rewrite app_nil_r in H1. now subst a.
    + cbn in H2. inversion H2; subst. now apply (Hsk a l').
  - destruct l as [|x l'].
    + rewrite app_nil_r in H1. now subst a.
    + cbn in H2. inversion H2 as [[Hx Hl]]. destruct l'; discriminate Hl.
Qed.

Lemma mk_order_inv (c : TCPConn) (b : DynBuf) (p : Pc) (sk : list SockOp) :
  destroy_after_bye sk ->
  (p = AwaitWriteBye -> exists w, writes sk = w ++ [bye_msg]) ->
  order_inv (mkHandler c b p sk).
Proof. intros H1 H2. split; assumption. Qed.

Lemma iteration_order (h : Handler) :
  wf (buf h) -> destroy_after_bye (sock h) -> order_inv (iteration h).
Proof.
  destruct h as [[e en r] b p sk]. cbn [buf sock]. intros Hwf Hlog.
  assert (Hw : forall d, ~ In Destroy [Write d])
    by (intros d [H|[]]; discriminate H).
  unfold iteration. cbn [buf conn sock].
  destruct (cut_cases Hwf)
    as [[Hn ->] | (pre & post & b' & Hu & Hpre & -> & Hwf' & Hpost)].
  - unfold soRead. cbn [err ended].
    destruct e as [e|]; [|destruct en].
    + apply mk_order_inv; [now apply destroy_after_bye_nil | discriminate].
    + unfold after_read. cbn [buf conn sock].
      destruct (bufPush_used [] Hwf) as (b1 & -> & _).
      cbn [blen length Z.of_nat Z.eqb].
      apply mk_order_inv; [now apply destroy_after_bye_nil | discriminate].
    + apply mk_order_inv; [|discriminate].
      apply destroy_after_bye_quiet; [assumption|].
      intros [H|[]]. discriminate H.
  - destruct (equals (pre ++ [nl]) quit_msg); unfold soWrite; cbn [err];
      destruct e as [e|]; apply mk_order_inv; try discriminate;
      try (now apply destroy_after_bye_nil);
      try (apply destroy_after_bye_quiet; [assumption | apply Hw]).
    intros _. exists (writes sk). apply writes_app.
Qed.

Lemma after_read_order (h : Handler) (d : bytes) :
  wf (buf h) -> destroy_after_bye (sock h) ->
  order_inv (run_top (after_read h d)).
Proof.
  intros Hwf Hlog. unfold after_read.
  destruct (bufPush_used d Hwf) as (b1 & -> & Hwf1 & _).
  destruct (blen d =? 0); unfold run_top; cbn [pc].
  - apply mk_order_inv; [assumption | discriminate].
  - apply iteration_order; assumption.
Qed.

Lemma quiet_order (c : TCPConn) (b : DynBuf) (p : Pc) (sk ops : list SockOp) :
  destroy_after_bye sk -> writes ops = [] -> ~ In Destroy ops ->
  (p = AwaitWriteBye -> exists w, writes sk = w ++ [bye_msg]) ->
  order_inv (mkHandler c b p (sk ++ ops)).
Proof.
  intros Hlog Hq Hn Hb. apply mk_order_inv.
  - now apply destroy_after_bye_quiet.
  - intros H. rewrite writes_app, Hq, app_nil_r. now apply Hb.
Qed.

Lemma deliver_order (h : Handler) (ev : Event) :
  handler_inv h -> order_inv h -> order_inv (deliver h ev).
Proof.
  intros Hinv Hs. pose proof Hinv as (Hwf & Htop & _ & _).
  pose proof Hs as (Hlog & Hbye).
  assert (Hpause : ~ In Destroy [Pause]) by (intros [H|[]]; discriminate H).
  destruct (reader_cases Hinv) as [[Hp Hr]|[Hp Hr]];
    destruct h as [c b p sk]; cbn [pc conn buf sock] in *;
    destruct ev as [d | | e | [e|]]; unfold deliver; cbn [conn buf pc sock].
  - unfold onData, resume_read. rewrite Hr, Hp. cbn [pc].
    apply after_read_order; cbn [buf sock]; [assumption|].
    now apply destroy_after_bye_quiet.
  - unfold onEnd, resume_read. rewrite Hr, Hp. cbn [pc].
    apply after_read_order; cbn [buf sock];
      [assumption | now apply destroy_after_bye_nil].
  - unfold onError, resume_read. rewrite Hr, Hp. cbn [pc conn buf sock].
    apply mk_order_inv; [now apply destroy_after_bye_nil | discriminate].
  - subst p. exact Hs.
  - subst p. exact Hs.
  - unfold onData, resume_read. rewrite Hr. cbn [pc].
    assert (Hq : order_inv (mkHandler (mkConn (err c) (ended c) None) b p
                                      (sk ++ [Pause])))
      by (apply quiet_order; try assumption; reflexivity).
    destruct p; try exact Hq; contradiction.
  - unfold onEnd, resume_read. rewrite Hr. cbn [pc].
    assert (Hq : order_inv (mkHandler (mkConn (err c) true None) b p
                                      (sk ++ [])))
      by (apply quiet_order; try assumption; try reflexivity; intros []).
    destruct p; try exact Hq; contradiction.
  - unfold onError, resume_read. rewrite Hr. cbn [pc].
    assert (Hq : order_inv (mkHandler (mkConn (Some e) (ended c) None) b p
                                      (sk ++ [])))
      by (apply quiet_order; try assumption; try reflexivity; intros []).
    destruct p; try exact Hq; contradiction.
  - cbn [write_callback].
    destruct p; try exact Hs; (apply mk_order_inv; [assumption | discriminate]).
  - cbn [write_callback].
    destruct p; try exact Hs; apply iteration_order; cbn [buf sock];
      try assumption.
    apply destroy_after_bye_destroy; [assumption | now apply Hbye].
Qed.

Lemma run_order_inv (evs : list Event) : order_inv (run serveClient evs).
Proof.
  unfold run.
  assert (H0 : handler_inv serveClient /\ order_inv serveClient).
  { split.
    - apply iteration_inv; [unfold wf; cbn; lia | reflexivity].
    - apply iteration_order; [unfold wf; cbn; lia|].
      intros a b Heq. destruct a; discriminate Heq. }
  revert H0. generalize serveClient as h.
  induction evs as [|ev rest IH]; intros h [Hi Hs]; cbn [fold_left].
  - assumption.
  - apply IH. split; [now apply deliver_inv | now apply deliver_order].
Qed.

(** X9. Whatever the socket does, the handler only ever writes replies
    of the protocol: the acknowledgment [Bye\n], or [Echo: ] followed by
    one complete message. And it destroys the socket only after the
    acknowledgment: wherever a [destroy] stands in the log of its calls,
    the last write before it is [Bye\n]. *)
Theorem only_replies_written (evs : list Event) :
  let h := run serveClient evs in
  Forall is_reply (writes (sock h))
  /\ (forall before after,
        sock h = before ++ Destroy :: after ->
        exists w, writes before = w ++ [bye_msg]).
Proof.
  intros h. destruct (run_sock_inv evs) as [_ ((Hrep & _) & _)].
  destruct (run_order_inv evs) as [Hord _].
  split; [exact Hrep | exact Hord].
Qed.

Lemma only_replies_written_witness :
  sock (run serveClient [EvData (msg_x ++ quit_msg); ack; ack])
  = [Resume; Pause; Write (echo_prefix ++ msg_x); Write bye_msg]
      ++ Destroy :: [Resume]
  /\ exists w,
       writes [Resume; Pause; Write (echo_prefix ++ msg_x); Write bye_msg]
       = w ++ [bye_msg].
Proof.
  assert (H : sock (run serveClient [EvData (msg_x ++ quit_msg); ack; ack])
              = [Resume; Pause; Write (echo_prefix ++ msg_x); Write bye_msg]
                  ++ Destroy :: [Resume]) by reflexivity.
  split; [exact H|].
  exact (proj2 (only_replies_written [EvData (msg_x ++ quit_msg); ack; ack])
               _ _ H).
Defined.

(** X10. Whenever the handler is suspended in [soRead], whatever events
    led there, every complete message it has received has been taken out
    of the buffer: the pending bytes hold no delimiter. *)
Theorem no_message_left_when_reading (evs : list Event) :
  pc (run serveClient evs) = AwaitRead ->
  wf (buf (run serveClient evs))
  /\ ~ In nl (used (buf (run serveClient evs))).
Proof.
  intros Hp. destruct (run_sock_inv evs) as [(Hwf & _) (_ & Hnl & _)].
  split; [assumption | now apply Hnl].
Qed.

Lemma no_message_left_when_reading_witness :
  pc (run serveClient [EvData msg_a_b; ack]) = AwaitRead
  /\ ~ In nl (used (buf (run serveClient [EvData msg_a_b; ack]))).
Proof.
  assert (H : pc (run serveClient [EvData msg_a_b; ack]) = AwaitRead)
    by reflexivity.
  split; [exact H|].
  exact (proj2 (no_message_left_when_reading [EvData msg_a_b; ack] H)).
Defined.

Lemma deliver_finished (h : Handler) (ev : Event) :
  finished (pc h) = true ->
  pc (deliver h ev) = pc h
  /\ buf (deliver h ev) = buf h
  /\ sock (deliver h ev) = sock h ++ (if is_data ev then [Pause] else []).
Proof.
  destruct h as [c b p sk]. cbn [pc buf sock]. intros Hf.
  destruct p; try discriminate Hf;
    destruct ev as [d | | e0 | r]; unfold deliver, onData, onEnd, onError;
    cbn [conn buf pc sock is_data];
    try destruct (reader c); try destruct (write_callback r);
    cbn [resume_read pc buf sock]; rewrite ?app_nil_r;
    repeat split; reflexivity.
Qed.

(** X11. A handler that has returned or failed stays so: later events
    do not restart it and do not change its buffer, and the only call
    still made on the socket is the [pause] of each ['data'] callback;
    nothing is written, resumed or destroyed any more. *)
Theorem finished_handler_stays_quiet (h : Handler) (evs : list Event) :
  finished (pc h) = true ->
  pc (run h evs) = pc h
  /\ buf (run h evs) = buf h
  /\ sock (run h evs) = sock h ++ repeat Pause (length (filter is_data evs)).
Proof.
  revert h. induction evs as [|ev rest IH]; intros h Hf.
  - cbn. rewrite app_nil_r. repeat split; reflexivity.
  - destruct (@deliver_finished h ev Hf) as (Hp & Hb & Hs).
    unfold run. cbn [fold_left]. fold (run (deliver h ev) rest).
    destruct (IH (deliver h ev)) as (Hp' & Hb' & Hs'); [now rewrite Hp|].
    rewrite Hp', Hb', Hs', Hp, Hb, Hs, <- app_assoc.
    repeat split. f_equal. cbn [filter]. destruct (is_data ev); reflexivity.
Qed.

Lemma finished_handler_stays_quiet_witness :
  finished (pc (run serveClient [EvEnd])) = true
  /\ sock (run (run serveClient [EvEnd]) [EvData msg_x; ack; EvData msg_y])
     = [Resume; Pause; Pause].
Proof.
  assert (H : finished (pc (run serveClient [EvEnd])) = true) by reflexivity.
  split; [exact H|].
  exact (proj2 (proj2 (finished_handler_stays_quiet
                         (run serveClient [EvEnd])
                         [EvData msg_x; ack; EvData msg_y] H))).
Defined.

(** X12. End of stream while the handler waits for input: it leaves the
    loop without one more call on the socket, so nothing is written for
    the bytes of an unfinished last line, which just stay in the buffer. *)
Theorem end_of_stream_exits (evs : list Event) :
  pc (run serveClient evs) = AwaitRead ->
  let h := run serveClient evs in
  let h' := deliver h EvEnd in
  pc h' = Exited
  /\ sock h' = sock h
  /\ used (buf h') = used (buf h)
  /\ ended (conn h') = true.
Proof.
  intros Hp h h'. destruct (run_inv evs) as (Hwf & _ & Hiff & _).
  fold h in Hp, Hwf, Hiff. apply Hiff in Hp as Hr.
  unfold h'. destruct h as [c b p sk]. cbn [pc conn buf sock] in *. subst p.
  unfold deliver, onEnd, resume_read, after_read.
  cbn [conn buf pc sock]. rewrite Hr. cbn [pc buf conn sock].
  destruct (bufPush_used [] Hwf) as (b1 & -> & _ & Hu & _).
  cbn. rewrite !app_nil_r in *. repeat split; assumption.
Qed.

Lemma end_of_stream_exits_witness :
  pc (run serveClient [EvData msg_a_b; ack]) = AwaitRead
  /\ pc (run serveClient [EvData msg_a_b; ack; EvEnd]) = Exited
  /\ writes (sock (run serveClient [EvData msg_a_b; ack; EvEnd]))
     = [echo_prefix ++ [x61; nl]].
Proof.
  assert (H : pc (run serveClient [EvData msg_a_b; ack]) = AwaitRead)
    by reflexivity.
  split; [exact H|].
  destruct (end_of_stream_exits [EvData msg_a_b; ack] H) as (Hp & Hs & _).
  split; [exact Hp|].
  change (run serveClient [EvData msg_a_b; ack; EvEnd])
    with (deliver (run serveClient [EvData msg_a_b; ack]) EvEnd).
  rewrite Hs. reflexivity.
Defined.

Lemma iteration_latched (c : TCPConn) (b : DynBuf) (sk : list SockOp)
      (e : Error) :
  wf b -> err c = Some e ->
  pc (iteration (mkHandler c b AtLoopTop sk)) = Thrown e
  /\ sock (iteration (mkHandler c b AtLoopTop sk)) = sk.
Proof.
  intros Hwf He. unfold iteration. cbn [buf conn sock].
  destruct (cut_cases Hwf)
    as [[_ ->] | (pre & post & b' & _ & _ & -> & _ & _)].
  - unfold soRead. rewrite He. cbn [pc sock]. rewrite app_nil_r.
    split; reflexivity.
  - destruct (equals (pre ++ [nl]) quit_msg); unfold soWrite; rewrite He;
      cbn [pc sock]; rewrite app_nil_r; split; reflexivity.
Qed.

Lemma deliver_error_writing (c : TCPConn) (b : DynBuf) (p : Pc)
      (sk : list SockOp) (e : Error) :
  reader c = None ->
  deliver (mkHandler c b p sk) (EvError e)
  = mkHandler (mkConn (Some e) (ended c) None) b p sk.
Proof.
  intros Hr. unfold deliver, onError. cbn [conn buf pc sock].
  rewrite Hr, app_nil_r. unfold resume_read. cbn [pc].
  destruct p; reflexivity.
Qed.

(** X13. A socket error while a write is outstanding is not noticed at
    once: the handler stays suspended. When that write is then
    acknowledged, the handler fails with the recorded error at its next
    read or write, without handing anything more to the socket (after
    [Bye\n] it still destroys the socket first). *)
Theorem error_during_write (evs : list Event) (e : Error) :
  let h := run serveClient evs in
  let h' := run h [EvError e; ack] in
  (pc h = AwaitWriteEcho ->
   pc (deliver h (EvError e)) = AwaitWriteEcho
   /\ pc h' = Thrown e /\ sock h' = sock h)
  /\ (pc h = AwaitWriteBye ->
      pc (deliver h (EvError e)) = AwaitWriteBye
      /\ pc h' = Thrown e /\ sock h' = sock h ++ [Destroy]).
Proof.
  intros h h'. pose proof (run_inv evs) as Hinv. fold h in Hinv.
  pose proof Hinv as (Hwf & _).
  assert (Hr : pc h <> AwaitRead -> reader (conn h) = None).
  { intros Hp. destruct (reader_cases Hinv) as [[Hp' _]|[_ Hr]];
      [contradiction | assumption]. }
  unfold h'. destruct h as [c b p sk]. cbn [pc conn buf sock] in *.
  unfold run. cbn [fold_left].
  split; intros ->; (rewrite deliver_error_writing by (apply Hr; discriminate));
    (split; [reflexivity|]); unfold deliver; cbn [pc write_callback conn buf sock].
  - now apply iteration_latched.
  - now apply iteration_latched.
Qed.

Lemma error_during_write_witness :
  pc (run serveClient [EvData msg_xy]) = AwaitWriteEcho
  /\ pc (run (run serveClient [EvData msg_xy])
             [EvError (TransportError 32); ack])
     = Thrown (TransportError 32)
  /\ writes (sock (run (run serveClient [EvData msg_xy])
                       [EvError (TransportError 32); ack]))
     = [echo_prefix ++ msg_x].
Proof.
  assert (H : pc (run serveClient [EvData msg_xy]) = AwaitWriteEcho)
    by reflexivity.
  split; [exact H|].
  destruct (proj1 (error_during_write [EvData msg_xy] (TransportError 32)) H)
    as (_ & Hp & Hs).
  split; [exact Hp|]. rewrite Hs. reflexivity.
Defined.

(** Framing a concatenation: the messages of the first part, then the
    messages of what it left over followed by the second part. *)
Lemma lines_app (a b : bytes) :
  lines (a ++ b)
  = (fst (lines a) ++ fst (lines (snd (lines a) ++ b)),
     snd (lines (snd (lines a) ++ b))).
Proof.
  induction a as [|x t IH].
  - cbn. destruct (lines b). reflexivity.
  - cbn [app lines]. rewrite IH. destruct (lines t) as [ms r]. cbn [fst snd].
    destruct (Byte.eqb x nl) eqn:E.
    + reflexivity.
    + destruct ms as [|m ms']; cbn [app fst snd lines].
      * rewrite E. destruct (lines (r ++ b)) as [[|m' M] R]; reflexivity.
      * reflexivity.
Qed.

Lemma writes_echo (ms : list bytes) :
  writes (map (fun m => Write (echo_prefix ++ m)) ms)
  = map (fun m => echo_prefix ++ m) ms.
Proof. induction ms as [|m t IH]; cbn [writes map]; [|rewrite IH]; reflexivity. Qed.

Lemma run_app (h : Handler) (a b : list Event) :
  run h (a ++ b) = run (run h a) b.
Proof. unfold run. apply fold_left_app. Qed.

Lemma feed_replies (chunks : list bytes) :
  forall u f sk,
  ~ In nl u ->
  Forall (fun d => d <> []) chunks ->
  Forall (fun m => m <> quit_msg) (fst (lines (u ++ concat chunks))) ->
  exists f' sk',
    run (mkHandler (mkConn None false (Some HandlerRead))
                   (mkDynBuf (u ++ f) (blen u)) AwaitRead sk)
        (feed u chunks)
    = mkHandler (mkConn None false (Some HandlerRead))
                (mkDynBuf (snd (lines (u ++ concat chunks)) ++ f')
                          (blen (snd (lines (u ++ concat chunks)))))
                AwaitRead sk'
    /\ writes sk'
       = writes sk
           ++ map (fun m => echo_prefix ++ m) (fst (lines (u ++ concat chunks))).
Proof.
  induction chunks as [|d rest IH]; intros u f sk Hu Hne Hq.
  - exists f, sk. cbn [feed concat run fold_left].
    rewrite app_nil_r, lines_notin by assumption. cbn [fst snd map].
    rewrite app_nil_r. split; reflexivity.
  - cbn [feed concat] in Hq |- *. inversion Hne as [|? ? Hd Hne']; subst.
    rewrite app_assoc in Hq |- *.
    rewrite (lines_app (u ++ d) (concat rest)) in Hq |- *.
    cbn [fst snd] in Hq |- *. apply Forall_app in Hq. destruct Hq as [Hq1 Hq2].
    destruct (@deliver_data HandlerRead u f d sk Hd) as (f1 & Hstep).
    destruct (@drain_echo (length (u ++ d)) (u ++ d) f1 None (sk ++ [Pause])
                (le_n _) Hq1) as (f2 & Hrun).
    destruct (lines_sound (u ++ d)) as (_ & _ & _ & Hrest).
    destruct (IH (snd (lines (u ++ d))) f2
                 ((sk ++ [Pause])
                    ++ map (fun m => Write (echo_prefix ++ m))
                           (fst (lines (u ++ d))) ++ [Resume])
                 Hrest Hne' Hq2) as (f' & sk' & Hfin & Hw).
    exists f', sk'. split.
    + match goal with
      | |- run ?h0 (EvData d :: ?acks ++ ?more) = _ =>
          replace (run h0 (EvData d :: acks ++ more))
            with (run (run (deliver h0 (EvData d)) acks) more)
            by (unfold run; cbn [fold_left]; symmetry; apply fold_left_app)
      end.
      rewrite Hstep. unfold ack. rewrite Hrun. exact Hfin.
    + rewrite Hw, !writes_app, writes_echo. cbn [writes].
      rewrite !app_nil_r, map_app, app_assoc. reflexivity.
Qed.

(** X14. Chunk boundaries do not show in the replies. A client sends
    non-empty chunks one after the other and every write succeeds; if no
    complete message of the whole stream is [quit\n], the handler writes
    exactly [Echo: ] plus each complete message of the concatenation, in
    order, however the stream was cut into chunks, and then waits for
    more input with the unfinished rest in its buffer. *)
Theorem replies_ignore_chunking (chunks : list bytes) :
  Forall (fun d => d <> []) chunks ->
  Forall (fun m => m <> quit_msg) (fst (lines (concat chunks))) ->
  let h := run serveClient (feed [] chunks) in
  pc h = AwaitRead
  /\ writes (sock h)
     = map (fun m => echo_prefix ++ m) (fst (lines (concat chunks)))
  /\ used (buf h) = snd (lines (concat chunks)).
Proof.
  intros Hne Hq h.
  destruct (@feed_replies chunks [] [] [Resume] (fun H => H) Hne Hq)
    as (f' & sk' & Hrun & Hw).
  change (mkHandler (mkConn None false (Some HandlerRead))
                    (mkDynBuf ([] ++ []) (blen [])) AwaitRead [Resume])
    with serveClient in Hrun.
  cbn [app] in Hrun, Hw. unfold h. rewrite Hrun. cbn [pc sock buf].
  rewrite used_split. repeat split; assumption.
Qed.

Lemma replies_ignore_chunking_witness :
  feed [] [chunk_ab; chunk_c_nl] = [EvData chunk_ab; EvData chunk_c_nl; ack]
  /\ writes (sock (run serveClient [EvData chunk_ab; EvData chunk_c_nl; ack]))
     = [echo_prefix ++ chunk_ab ++ chunk_c_nl].
Proof.
  split; [reflexivity|].
  assert (Hne : Forall (fun d : bytes => d <> []) [chunk_ab; chunk_c_nl])
    by (repeat constructor; discriminate).
  assert (Hq : Forall (fun m => m <> quit_msg)
                 (fst (lines (concat [chunk_ab; chunk_c_nl]))))
    by (repeat constructor; discriminate).
  exact (proj1 (proj2 (replies_ignore_chunking Hne Hq))).
Defined.

(** ** Read waiters *)

Lemma conn_step_waiters (c : TCPConn) (s : ConnStep) :
  ((if settles c s then 1 else 0) + waiting (conn_step c s)
   <= (if registers c s then 1 else 0) + waiting c)%nat
  /\ (settles c s = true -> reader c <> None).
Proof.
  destruct c as [[e|] en [r|]], s; try destruct en;
    cbn; split; try lia; try discriminate; try congruence.
Qed.

(** X15. Along any history of reads, writes and socket events, the
    callbacks settle a read at most once per registration: the number of
    results delivered, plus one if a waiter is still registered at the
    end, never exceeds the number of reads that were registered (plus
    one if a waiter was registered at the start). A result is only ever
    delivered to a registered waiter, and each socket callback leaves
    the waiter slot empty. *)
Theorem reads_settled_at_most_once (l : list ConnStep) (c : TCPConn) :
  (count_steps settles c l + waiting (conn_steps c l)
   <= count_steps registers c l + waiting c)%nat
  /\ (forall s, settles c s = true -> reader c <> None)
  /\ (forall d, reader (conn_step c (GotData d)) = None)
  /\ reader (conn_step c GotEnd) = None
  /\ (forall e, reader (conn_step c (GotError e)) = None).
Proof.
  split.
  - revert c. induction l as [|s rest IH]; intros c; cbn [count_steps].
    + cbn. lia.
    + unfold conn_steps in *. cbn [fold_left].
      pose proof (IH (conn_step c s)) as H1.
      destruct (conn_step_waiters c s) as (H2 & _). lia.
  - split; [|split; [|split]].
    + intros s. apply conn_step_waiters.
    + intros d. destruct c as [e en [r|]]; reflexivity.
    + destruct c as [e en [r|]]; reflexivity.
    + intros e0. destruct c as [e en [r|]]; reflexivity.
Qed.

Lemma reads_settled_at_most_once_witness :
  settles (conn_step soInit DoRead) (GotData msg_x) = true
  /\ reader (conn_step soInit DoRead) <> None
  /\ (count_steps settles soInit [DoRead; DoRead; GotData msg_x; GotData msg_y]
      <= count_steps registers soInit
           [DoRead; DoRead; GotData msg_x; GotData msg_y])%nat.
Proof.
  assert (H : settles (conn_step soInit DoRead) (GotData msg_x) = true)
    by reflexivity.
  split; [exact H|].
  destruct (reads_settled_at_most_once
              [DoRead; DoRead; GotData msg_x; GotData msg_y] soInit)
    as (Hc & _).
  destruct (reads_settled_at_most_once [] (conn_step soInit DoRead))
    as (_ & Hs & _).
  split; [exact (Hs (GotData msg_x) H)|].
  cbn in Hc |- *. lia.
Defined.

(** ** The unbuffered echo server *)

Lemma unbuffered_round (sk : list SockOp) (d : bytes) :
  d <> [] ->
  Unbuffered.run
    (Unbuffered.mkHandler (mkConn None false (Some HandlerRead))
                          Unbuffered.AwaitRead sk)
    [EvData d; ack]
  = Unbuffered.mkHandler (mkConn None false (Some HandlerRead))
                         Unbuffered.AwaitRead
                         (sk ++ [Pause; Write d; Resume]).
Proof.
  intros Hd. unfold Unbuffered.run. cbn [fold_left].
  unfold Unbuffered.deliver at 2. unfold onData.
  cbn [Unbuffered.conn Unbuffered.pc Unbuffered.sock reader err ended].
  unfold Unbuffered.resume_read. cbn [Unbuffered.pc].
  unfold Unbuffered.after_read.
  assert ((blen d =? 0) = false) as ->.
  { apply Z.eqb_neq. destruct d; [congruence|]. unfold blen. simpl. lia. }
  cbn. rewrite <- !app_assoc. reflexivity.
Qed.

(** X16. The unbuffered server echoes verbatim: for a client that sends
    non-empty chunks while every write succeeds, the handler writes back
    exactly those chunks, unchanged and in order, one write per chunk,
    and ends up waiting for the next read. *)
Theorem unbuffered_echo (chunks : list bytes) :
  Forall (fun d => d <> []) chunks ->
  let h := Unbuffered.run Unbuffered.serveClient
                          (Unbuffered.echo_events chunks) in
  Unbuffered.pc h = Unbuffered.AwaitRead
  /\ writes (Unbuffered.sock h) = chunks.
Proof.
  intros Hne h.
  assert (Hgen : forall sk,
             Unbuffered.run
               (Unbuffered.mkHandler (mkConn None false (Some HandlerRead))
                                     Unbuffered.AwaitRead sk)
               (Unbuffered.echo_events chunks)
             = Unbuffered.mkHandler (mkConn None false (Some HandlerRead))
                 Unbuffered.AwaitRead
                 (sk ++ flat_map (fun d => [Pause; Write d; Resume]) chunks)).
  { induction Hne as [|d rest Hd _ IH]; intros sk.
    - cbn. now rewrite app_nil_r.
    - unfold Unbuffered.echo_events. cbn [flat_map].
      fold (Unbuffered.echo_events rest).
      unfold Unbuffered.run. rewrite fold_left_app.
      fold (Unbuffered.run
              (Unbuffered.mkHandler (mkConn None false (Some HandlerRead))
                                    Unbuffered.AwaitRead sk) [EvData d; ack]).
      rewrite (@unbuffered_round sk d Hd).
      fold (Unbuffered.run
              (Unbuffered.mkHandler (mkConn None false (Some HandlerRead))
                 Unbuffered.AwaitRead (sk ++ [Pause; Write d; Resume]))
              (Unbuffered.echo_events rest)).
      rewrite IH, <- app_assoc. reflexivity. }
  unfold h.
  change Unbuffered.serveClient
    with (Unbuffered.mkHandler (mkConn None false (Some HandlerRead))
                               Unbuffered.AwaitRead [Resume]).
  rewrite Hgen. cbn [Unbuffered.pc Unbuffered.sock]. split; [reflexivity|].
  cbn [app writes]. clear. induction chunks as [|d rest IH]; [reflexivity|].
  cbn [flat_map app writes]. now rewrite IH.
Qed.

Lemma unbuffered_echo_witness :
  writes (Unbuffered.sock
            (Unbuffered.run Unbuffered.serveClient
                            [EvData chunk_ab; ack; EvData chunk_c_nl; ack]))
  = [chunk_ab; chunk_c_nl].
Proof.
  assert (Hne : Forall (fun d : bytes => d <> []) [chunk_ab; chunk_c_nl])
    by (repeat constructor; discriminate).
  exact (proj2 (unbuffered_echo Hne)).
Defined.

Lemma destroys_app (a b : list SockOp) :
  destroys (a ++ b) = (destroys a + destroys b)%nat.
Proof.
  induction a as [|o t IH]; [reflexivity|].
  destruct o; cbn [app destroys]; rewrite IH; reflexivity.
Qed.

(** [serveClient] itself never destroys the socket, and once it has
    returned or failed no event changes that. *)
Lemma unbuffered_deliver_quiet (h : Unbuffered.Handler) (ev : Event) :
  destroys (Unbuffered.sock (Unbuffered.deliver h ev))
  = destroys (Unbuffered.sock h)
  /\ (Unbuffered.finished (Unbuffered.pc h) = true ->
      Unbuffered.pc (Unbuffered.deliver h ev) = Unbuffered.pc h).
Proof.
  destruct h as [[e en r] p sk].
  destruct ev as [d | | e0 | w];
    unfold Unbuffered.deliver, Unbuffered.resume_read, Unbuffered.after_read,
      Unbuffered.iteration, onData, onEnd, onError, soRead, soWrite,
      write_callback;
    cbn [Unbuffered.conn Unbuffered.pc Unbuffered.sock err ended reader];
    destruct p, r, e; try destruct en; try destruct w;
    cbn [Unbuffered.conn Unbuffered.pc Unbuffered.sock err ended reader
         Unbuffered.after_read blen length Z.of_nat Z.eqb Unbuffered.finished];
    try destruct (blen d =? 0);
    cbn [Unbuffered.conn Unbuffered.pc Unbuffered.sock Unbuffered.finished];
    rewrite ?destroys_app; cbn [destroys]; rewrite ?Nat.add_0_r;
    split; try reflexivity; try discriminate.
Qed.

(** X17. [newConn] closes the socket on every path: whatever the events,
    [socket.destroy()] has been called exactly once if [serveClient] has
    returned or failed, by end of stream, by a rejected read or by a
    rejected write, and not at all while it is still running. *)
Theorem newConn_destroys_exactly_once (evs : list Event) :
  let n := Unbuffered.newConn_run Unbuffered.newConn evs in
  Unbuffered.finalised n
  = Unbuffered.finished (Unbuffered.pc (Unbuffered.serving n))
  /\ destroys (Unbuffered.sock (Unbuffered.serving n))
     = (if Unbuffered.finished (Unbuffered.pc (Unbuffered.serving n))
        then 1 else 0)%nat.
Proof.
  intros n. unfold n, Unbuffered.newConn_run.
  assert (H0 : Unbuffered.finalised Unbuffered.newConn
               = Unbuffered.finished
                   (Unbuffered.pc (Unbuffered.serving Unbuffered.newConn))
               /\ destroys (Unbuffered.sock
                              (Unbuffered.serving Unbuffered.newConn))
                  = (if Unbuffered.finished
                          (Unbuffered.pc
                             (Unbuffered.serving Unbuffered.newConn))
                     then 1 else 0)%nat)
    by (split; reflexivity).
  revert H0. generalize Unbuffered.newConn as m. clear n.
  induction evs as [|ev rest IH]; intros m [Hf Hd]; cbn [fold_left].
  - split; assumption.
  - apply IH. clear IH. destruct m as [h fin]. cbn [Unbuffered.serving
      Unbuffered.finalised] in *.
    destruct (unbuffered_deliver_quiet h ev) as [Hq Hstay].
    unfold Unbuffered.newConn_deliver, Unbuffered.finally.
    cbn [Unbuffered.serving Unbuffered.finalised].
    destruct (Unbuffered.finished (Unbuffered.pc h)) eqn:Hfin; subst fin.
    + rewrite (Hstay eq_refl), Hfin. cbn [negb andb Unbuffered.serving
        Unbuffered.finalised]. rewrite (Hstay eq_refl), Hfin, Hq.
      split; [reflexivity | assumption].
    + cbn [negb andb].
      destruct (Unbuffered.finished
                  (Unbuffered.pc (Unbuffered.deliver h ev))) eqn:Hfin';
        cbn [Unbuffered.serving Unbuffered.finalised Unbuffered.pc
             Unbuffered.sock]; rewrite ?Hfin'.
      * rewrite destroys_app, Hq, Hd. split; reflexivity.
      * rewrite Hq, Hd. split; reflexivity.
Qed.

(** ** The callback echo server *)

Lemma includes_In (d : bytes) (x : byte) :
  Callback.includes d x = true <-> In x d.
Proof.
  unfold Callback.includes, indexOf. split.
  - intros H. destruct (in_dec Byte.byte_eq_dec x d) as [Hin|Hn]; [assumption|].
    rewrite index_from_notin in H by assumption. discriminate H.
  - intros Hin. destruct (first_occurrence _ _ Hin) as (pre & post & -> & Hn).
    rewrite index_from_first by assumption.
    pose proof (blen_nonneg pre).
    destruct (Z.eqb_spec (0 + blen pre) (-1)); [lia | reflexivity].
Qed.

(** X18. The callback server writes every chunk back unchanged, in
    order, and calls [socket.end()] exactly when some received byte is
    ['q'], wherever in the stream it stands. *)
Theorem callback_echo_and_end (chunks : list bytes) :
  Callback.written (Callback.run chunks) = chunks
  /\ (In Callback.CallEnd (Callback.run chunks) <-> In x71 (concat chunks)).
Proof.
  unfold Callback.run. induction chunks as [|d rest [IHw IHe]].
  - cbn. split; [reflexivity | tauto].
  - cbn [flat_map concat].
    assert (Hend : In Callback.CallEnd (Callback.onData d) <-> In x71 d).
    { rewrite <- includes_In. unfold Callback.onData.
      destruct (Callback.includes d x71); cbn; intuition discriminate. }
    assert (Hw : forall l, Callback.written (Callback.onData d ++ l)
                           = d :: Callback.written l).
    { intros l. unfold Callback.onData.
      destruct (Callback.includes d x71); reflexivity. }
    split.
    + rewrite Hw, IHw. reflexivity.
    + rewrite !in_app_iff, Hend, IHe. reflexivity.
Qed.

(** ** The accept loop *)

Lemma on_socket_length (i : nat) (ev : Event) (cs : list Listener.Served) :
  length (Listener.on_socket i ev cs) = length cs.
Proof.
  revert i. induction cs as [|c t IH]; intros [|j]; cbn; try reflexivity.
  now rewrite IH.
Qed.

Lemma stopped_run (evs : list Listener.ServerEvent) (s : Listener.Server) :
  Listener.running s = false -> Listener.run s evs = s.
Proof.
  intros Hs. induction evs as [|ev rest IH]; [reflexivity|].
  unfold Listener.run. cbn [fold_left]. unfold Listener.step at 2.
  rewrite Hs. exact IH.
Qed.

Lemma healthy_run (evs : list Listener.ServerEvent) :
  forall cs,
  existsb Listener.is_server_error evs = false ->
  Listener.running
    (Listener.run
       (Listener.mkServer (Listener.mkListner None (Some Listener.MainAccept))
                          Listener.AwaitAccept cs O true) evs) = true ->
  exists cs',
    Listener.run
      (Listener.mkServer (Listener.mkListner None (Some Listener.MainAccept))
                         Listener.AwaitAccept cs O true) evs
    = Listener.mkServer (Listener.mkListner None (Some Listener.MainAccept))
                        Listener.AwaitAccept cs' O true
    /\ length cs' = (length cs + Listener.connections evs)%nat.
Proof.
  induction evs as [|ev rest IH]; intros cs Hno Hrun.
  - exists cs. cbn. split; [reflexivity | lia].
  - destruct ev as [| e | i ev]; cbn [existsb Listener.is_server_error orb] in Hno;
      try discriminate Hno; unfold Listener.run in *; cbn [fold_left] in *;
      unfold Listener.connections; cbn [filter Listener.is_connection length].
    + destruct (IH (cs ++ [Listener.mkServed soInit serveClient]) Hno Hrun)
        as (cs' & Hr & Hlen).
      exists cs'. split; [exact Hr|].
      rewrite Hlen, length_app. cbn [length]. unfold Listener.connections. lia.
    + unfold Listener.step at 2 in Hrun. unfold Listener.step at 2.
      cbn [Listener.running Listener.step_running Listener.listener
           Listener.mpc Listener.served Listener.unserved] in *.
      destruct (negb (existsb Listener.rejected (Listener.on_socket i ev cs)))
        eqn:Halive.
      * destruct (IH (Listener.on_socket i ev cs) Hno Hrun) as (cs' & Hr & Hlen).
        exists cs'. split; [exact Hr|].
        rewrite Hlen, on_socket_length. reflexivity.
      * exfalso.
        fold (Listener.run
                (Listener.mkServer
                   (Listener.mkListner None (Some Listener.MainAccept))
                   Listener.AwaitAccept (Listener.on_socket i ev cs) O false)
                rest) in Hrun.
        rewrite stopped_run in Hrun by reflexivity. discriminate Hrun.
Qed.

Lemma fatal_run (evs : list Listener.ServerEvent) :
  forall e0 e cs k,
  Listener.running
    (Listener.run
       (Listener.mkServer (Listener.mkListner (Some e0) None)
                          (Listener.Fatal e) cs k true) evs) = true ->
  exists e' cs',
    Listener.run
      (Listener.mkServer (Listener.mkListner (Some e0) None)
                         (Listener.Fatal e) cs k true) evs
    = Listener.mkServer (Listener.mkListner (Some e') None)
                        (Listener.Fatal e) cs'
                        (k + Listener.connections evs) true
    /\ length cs' = length cs.
Proof.
  induction evs as [|ev rest IH]; intros e0 e cs k Hrun.
  - exists e0, cs. cbn. rewrite Nat.add_0_r. split; reflexivity.
  - destruct ev as [| e1 | i ev]; unfold Listener.run in *;
      cbn [fold_left] in *;
      unfold Listener.connections; cbn [filter Listener.is_connection length].
    + destruct (IH e0 e cs (S k) Hrun) as (e' & cs' & Hr & Hlen).
      exists e', cs'. split; [|exact Hlen].
      cbn in Hr |- *. rewrite Hr. unfold Listener.connections. f_equal. lia.
    + destruct (IH e1 e cs k Hrun) as (e' & cs' & Hr & Hlen).
      exists e', cs'. split; [exact Hr | exact Hlen].
    + unfold Listener.step at 2 in Hrun. unfold Listener.step at 2.
      cbn [Listener.running Listener.step_running Listener.listener
           Listener.mpc Listener.served Listener.unserved] in *.
      destruct (negb (existsb Listener.rejected (Listener.on_socket i ev cs)))
        eqn:Halive.
      * destruct (IH e0 e (Listener.on_socket i ev cs) k Hrun)
          as (e' & cs' & Hr & Hlen).
        exists e', cs'. split; [exact Hr|].
        rewrite Hlen. apply on_socket_length.
      * exfalso.
        fold (Listener.run
                (Listener.mkServer (Listener.mkListner (Some e0) None)
                   (Listener.Fatal e) (Listener.on_socket i ev cs) k false)
                rest) in Hrun.
        rewrite stopped_run in Hrun by reflexivity. discriminate Hrun.
Qed.

(** X19. As long as the server socket reports no error and the process
    is running, no connection is lost: [main] has started one handler
    per connection that arrived, none was handed to nobody, and [main]
    is suspended in [soAccept] with its waiter registered for the next
    one. *)
Theorem every_connection_served (evs : list Listener.ServerEvent) :
  existsb Listener.is_server_error evs = false ->
  let s := Listener.run Listener.main evs in
  Listener.running s = true ->
  length (Listener.served s) = Listener.connections evs
  /\ Listener.unserved s = O
  /\ Listener.mpc s = Listener.AwaitAccept
  /\ Listener.accepter (Listener.listener s) = Some Listener.MainAccept.
Proof.
  intros Hno s Halive.
  destruct (@healthy_run evs [] Hno Halive) as (cs' & Hrun & Hlen).
  change (Listener.mkServer
            (Listener.mkListner None (Some Listener.MainAccept))
            Listener.AwaitAccept [] O true) with Listener.main in Hrun.
  unfold s. rewrite Hrun. cbn. repeat split. exact Hlen.
Qed.

Lemma every_connection_served_witness :
  Listener.running
    (Listener.run Listener.main
       [Listener.Connection; Listener.OnSocket 0 (EvData msg_x);
        Listener.Connection; Listener.OnSocket 0 ack]) = true
  /\ length (Listener.served
               (Listener.run Listener.main
                  [Listener.Connection; Listener.OnSocket 0 (EvData msg_x);
                   Listener.Connection; Listener.OnSocket 0 ack])) = 2%nat.
Proof.
  split; [reflexivity|].
  exact (proj1 (@every_connection_served
                  [Listener.Connection; Listener.OnSocket 0 (EvData msg_x);
                   Listener.Connection; Listener.OnSocket 0 ack]
                  eq_refl eq_refl)).
Defined.

(** X20. An error of the server socket is fatal and final. In a process
    that is still running after the events: [main] has failed with the
    first error of the server and is never resumed, so of the
    connections that arrived afterwards none has a handler, while the
    connections accepted before are kept; and [soAccept] rejects at once
    with the recorded error. *)
Theorem listener_error_is_fatal
        (before after : list Listener.ServerEvent) (e : Error) :
  existsb Listener.is_server_error before = false ->
  let s := Listener.run Listener.main
                        (before ++ Listener.ServerError e :: after) in
  Listener.running s = true ->
  Listener.mpc s = Listener.Fatal e
  /\ length (Listener.served s) = Listener.connections before
  /\ Listener.unserved s = Listener.connections after
  /\ exists e',
       Listener.err (Listener.listener s) = Some e'
       /\ Listener.soAccept (Listener.listener s)
          = (Listener.listener s, Rejected e').
Proof.
  intros Hno s Halive.
  assert (Hs0 : s = Listener.run
                      (Listener.run Listener.main before)
                      (Listener.ServerError e :: after)).
  { unfold s, Listener.run. apply fold_left_app. }
  assert (Hb : Listener.running (Listener.run Listener.main before) = true).
  { destruct (Listener.running (Listener.run Listener.main before)) eqn:Hb;
      [reflexivity|].
    rewrite Hs0, stopped_run in Halive by exact Hb. congruence. }
  destruct (@healthy_run before [] Hno Hb) as (cs1 & Hrun1 & Hlen1).
  change (Listener.mkServer
            (Listener.mkListner None (Some Listener.MainAccept))
            Listener.AwaitAccept [] O true) with Listener.main in Hrun1.
  rewrite Hrun1 in Hs0. unfold Listener.run in Hs0. cbn [fold_left] in Hs0.
  unfold Listener.step at 2 in Hs0.
  cbn [Listener.running Listener.step_running Listener.onServerError
       Listener.listener Listener.accepter Listener.mpc Listener.served
       Listener.unserved Listener.err] in Hs0.
  fold (Listener.run
          (Listener.mkServer (Listener.mkListner (Some e) None)
                             (Listener.Fatal e) cs1 O true) after) in Hs0.
  rewrite Hs0 in Halive.
  destruct (@fatal_run after e e cs1 O Halive) as (e' & cs2 & Hrun2 & Hlen2).
  rewrite Hs0, Hrun2.
  cbn [Listener.mpc Listener.served Listener.unserved Listener.listener
       Listener.err].
  split; [reflexivity|]. split; [cbn [length] in Hlen1; lia|].
  split; [reflexivity|]. exists e'. split; reflexivity.
Qed.

Lemma listener_error_is_fatal_witness :
  let s := Listener.run Listener.main
             [Listener.Connection; Listener.ServerError (TransportError 24);
              Listener.Connection; Listener.Connection] in
  Listener.running s = true
  /\ Listener.mpc s = Listener.Fatal (TransportError 24)
  /\ length (Listener.served s) = 1%nat
  /\ Listener.unserved s = 2%nat.
Proof.
  intros s. split; [reflexivity|].
  destruct (@listener_error_is_fatal [Listener.Connection]
              [Listener.Connection; Listener.Connection]
              (TransportError 24) eq_refl eq_refl) as (H1 & H2 & H3 & _).
  split; [exact H1|]. split; [exact H2 | exact H3].
Defined.




(** ** Resource cleanup *)









